(** * NeuraSentinel: the swing-segmentation pipeline

    A shallow embedding of the signal-to-segments pipeline of
    [backend/prepare_phone_dataset.py], of the append driver of
    [backend/augment_from_new_phone_dataset.py] and of the augmentation
    step of [backend/train_cnn.py].

    Modelling conventions.
    - A Python/NumPy float is an exact rational ([Q]): the development is
      about the algorithms in exact arithmetic.  Every concrete input used
      below is a dyadic or small decimal value on which binary64 computes
      the same comparisons.  Where binary64 rounding can change an
      outcome (the number of points of [np.arange], a threshold met with
      equality, the overflow of a square), the statement leaves room for
      it or bounds the magnitudes.
    - A Python [int] is a [Z]; list and array positions are [nat] once they
      are known to be in range, and [Z] where Python's negative indexing
      can occur.
    - A raised exception is a value of [exn]; a function that can raise
      returns a [result].
    - A 2-D array is an [ndarray]: a column count and a list of rows. *)

From Stdlib Require Import ZArith QArith Qround Lqa Lia List String Ascii Bool.
From Stdlib Require Import DecimalString DecimalN Sorted.
From Stdlib Require Import Reals Qreals Psatz.
From stdpp Require Import gmap strings list.
Import ListNotations.

Open Scope Q_scope.

(** ** Exceptions *)

Inductive exn : Type :=
| ValueError_shapes       (* "Inconsistent shapes for t and xyz" *)
| ValueError_columns      (* "Expected at least 4 columns in ..." *)
| ValueError_no_overlap   (* "No overlapping time range between ..." *)
| ValueError_channels     (* "Expected 6 channels, got ..." *)
| ValueError_numpy        (* a ValueError raised inside a NumPy call *)
| IndexError
| ZeroDivisionError
| AssertionError.

Inductive result (A : Type) : Type :=
| Ok (a : A)
| Raise (e : exn).

Arguments Ok {A} a.
Arguments Raise {A} e.

#[export] Instance result_ret : MRet result := fun A a => Ok a.

#[export] Instance result_bind : MBind result := fun A B f m =>
  match m with
  | Ok a => f a
  | Raise e => Raise e
  end.

Definition is_ok {A} (r : result A) : bool :=
  match r with Ok _ => true | Raise _ => false end.

(** The rows of a returned array (none for a raised exception). *)
Definition result_rows {R} (rows_of : R → list (list Q)) (r : result R)
  : list (list Q) :=
  match r with Ok a => rows_of a | Raise _ => [] end.

(** ** Float helpers *)

Definition Qltb (x y : Q) : bool := negb (Qle_bool y x).

(** Python's [int(x)] on a float: truncation toward zero. *)
Definition py_int (x : Q) : Z :=
  if Qle_bool 0 x then Qfloor x else Qceiling x.


Definition Qsum (l : list Q) : Q := fold_right Qplus 0 l.

(** ** Arrays *)

Record ndarray : Type := mk_array { ncols : nat; rows : list (list Q) }.

Definition nrows (a : ndarray) : nat := length (rows a).

(** Every row has [ncols] entries. *)
Definition wf_array (a : ndarray) : Prop :=
  Forall (fun r => length r = ncols a) (rows a).

(** [a[:, j]] *)
Definition column (j : nat) (a : ndarray) : list Q :=
  map (fun r => nth j r 0) (rows a).

(** The array of [n] rows whose [j]-th column is the [j]-th list of [cols]:
    what [out = np.empty((n, d))] holds after [out[:, j] = cols[j]] for
    every [j]. *)
Definition from_columns (n : nat) (cols : list (list Q)) : ndarray :=
  {| ncols := length cols;
     rows := map (fun i => map (fun c => nth i c 0) cols) (seq 0 n) |}.

(** Python indexing [l[i]] with negative positions counted from the end. *)
Definition py_getitem {A} (l : list A) (i : Z) : result A :=
  let n := Z.of_nat (length l) in
  let k := (if i <? 0 then i + n else i)%Z in
  if ((k <? 0) || (n <=? k))%Z then Raise IndexError
  else match nth_error l (Z.to_nat k) with
       | Some x => Ok x
       | None => Raise IndexError
       end.

(** Python slicing [l[start:stop]] of a sequence. *)
Definition py_slice {A} (l : list A) (start stop : Z) : list A :=
  let n := Z.of_nat (length l) in
  let clip i := (if i <? 0 then Z.max 0 (i + n) else Z.min i n)%Z in
  let a := clip start in
  let b := clip stop in
  firstn (Z.to_nat (b - a)) (skipn (Z.to_nat a) l).

(** ** NumPy primitives *)

(** [np.arange(start, stop, step)] on floats: [ceil((stop - start) / step)]
    points [start + i * step] (none when that count is not positive).
    The quotient is exact here; NumPy rounds it to binary64 before it takes
    the ceiling, so when the exact quotient is an integer, or within a
    rounding error of one, NumPy's array can be one point longer or
    shorter. *)
Definition np_arange (start stop step : Q) : list Q :=
  let len := Qceiling ((stop - start) / step) in
  map (fun i => start + inject_Z (Z.of_nat i) * step) (seq 0 (Z.to_nat len)).

(** [np.linspace(start, stop, num)] for [num >= 0] (a negative [num] is
    rejected by the callers below, as NumPy does). *)
Definition np_linspace (start stop : Q) (num : Z) : list Q :=
  if (num =? 1)%Z then [start]
  else
    let step := (stop - start) / inject_Z (num - 1) in
    map (fun i => start + inject_Z (Z.of_nat i) * step) (seq 0 (Z.to_nat num)).

(** The interpolation of one abscissa [x] with [xp[0] <= x]: walk to the
    interval [xp[j] <= x < xp[j+1]] and interpolate linearly; past the last
    sample point the last value is returned.  NumPy finds [j] by binary
    search, which agrees with this walk on the increasing [xp] passed at
    every call site.  At a sample point the sample itself is returned, as
    NumPy does; between two sample points the value is exact here, where
    NumPy's is within a rounding error of it. *)
Fixpoint interp_walk (x : Q) (xp fp : list Q) : Q :=
  match xp, fp with
  | x0 :: ((x1 :: _) as xp'), f0 :: ((f1 :: _) as fp') =>
      if Qltb x x1 then
        if Qeq_bool x x0 then f0
        else (f1 - f0) / (x1 - x0) * (x - x0) + f0
      else interp_walk x xp' fp'
  | _, f0 :: _ => f0
  | _, [] => 0
  end.

Definition interp_one (x : Q) (xp fp : list Q) : Q :=
  match xp, fp with
  | x0 :: _, f0 :: _ => if Qltb x x0 then f0 else interp_walk x xp fp
  | _, _ => 0
  end.

(** [np.interp(x, xp, fp)] with the default [left] and [right]. *)
Definition np_interp (x xp fp : list Q) : result (list Q) :=
  if negb (length xp =? length fp)%nat then Raise ValueError_numpy
  else if (length xp =? 0)%nat then Raise ValueError_numpy
  else Ok (map (fun xi => interp_one xi xp fp) x).

(** ** [prepare_phone_dataset.py] *)

Definition FS_TARGET : Q := 100.
Definition SEGMENT_SAMPLES : Z := 100.
Definition PRE_SEG_SEC : Q := 1 # 2.
Definition POST_SEG_SEC : Q := 1 # 2.


(** [order = np.argsort(t); t = t[order]; xyz = xyz[order, :]], as a stable
    insertion sort of the (time, row) pairs.  NumPy's default sort need not
    be stable: among samples of equal time the order of the rows can differ
    from the one modelled here, the order of the times cannot. *)
Fixpoint insert_by_time (x : Q * list Q) (l : list (Q * list Q))
  : list (Q * list Q) :=
  match l with
  | [] => [x]
  | y :: l' =>
      if Qle_bool (fst x) (fst y) then x :: y :: l'
      else y :: insert_by_time x l'
  end.

Definition sort_by_time (l : list (Q * list Q)) : list (Q * list Q) :=
  fold_right insert_by_time [] l.

(** [mask[1:] = t[1:] > t[:-1]]: position [i > 0] is kept when its time is
    above the time just before it in the sorted sequence. *)
Fixpoint mask_after (prev : Q) (l : list (Q * list Q)) : list (Q * list Q) :=
  match l with
  | [] => []
  | x :: l' =>
      if Qltb prev (fst x) then x :: mask_after (fst x) l'
      else mask_after (fst x) l'
  end.

Definition drop_duplicates (l : list (Q * list Q)) : list (Q * list Q) :=
  match l with
  | [] => []
  | x :: l' => x :: mask_after (fst x) l'
  end.

(** The cleaned trace: sorted by time, duplicates dropped. *)
Definition clean_trace (t : list Q) (xyz : ndarray) : list (Q * list Q) :=
  drop_duplicates (sort_by_time (combine t (rows xyz))).

Definition cleaned_times (t : list Q) (xyz : ndarray) : list Q :=
  map fst (clean_trace t xyz).

(** [out[:, i] = np.interp(x, xp, a[:, i])] for [i] in [range(d)], on an
    array [a] of at least [d] columns. *)
Definition interp_columns (x xp : list Q) (a : ndarray) (d : nat)
  : result ndarray :=
  cols ← mapM (fun i => np_interp x xp (column i a)) (seq 0 d);
  Ok (from_columns (length x) cols).

Definition resample_to_grid (t : list Q) (xyz : ndarray) (fs : Q)
  : result (list Q * ndarray) :=
  if negb (nrows xyz =? length t)%nat then Raise ValueError_shapes
  else
    let cleaned := clean_trace t xyz in
    let t' := map fst cleaned in
    let xyz' := {| ncols := ncols xyz; rows := map snd cleaned |} in
    if Qeq_bool fs 0 then Raise ZeroDivisionError
    else
      let dt := 1 / fs in
      t_min ← py_getitem t' 0;
      t_max ← py_getitem t' (-1);
      let t_grid := np_arange t_min (t_max + (1 # 2) * dt) dt in
      out ← interp_columns t_grid t' xyz' (ncols xyz);
      Ok (t_grid, out).


(** [range(a, b)] *)
Definition py_range (a b : Z) : list Z :=
  map (fun i => (a + Z.of_nat i)%Z) (seq 0 (Z.to_nat (b - a))).

(** Entry [m] of the full discrete convolution of [a] and [v]. *)
Definition conv_full_at (a v : list Q) (m : nat) : Q :=
  Qsum (map (fun j => nth j a 0 * nth (m - j) v 0) (seq 0 (S m))).

(** [np.convolve(a, v, mode="same")]: the operands are swapped so that [a]
    is the longer one, and the result is the centred part of the full
    convolution, of the length of [a]. *)
Definition np_convolve_same (a v : list Q) : result (list Q) :=
  let '(a, v) := if (length a <? length v)%nat then (v, a) else (a, v) in
  if (length a =? 0)%nat then Raise ValueError_numpy
  else if (length v =? 0)%nat then Raise ValueError_numpy
  else
    let off := ((length v - 1) / 2)%nat in
    Ok (map (fun i => conv_full_at a v (i + off)) (seq 0 (length a))).

(** [np.ones(window) / float(window)] *)
Definition box_kernel (window : Z) : list Q :=
  repeat (1 / inject_Z window) (Z.to_nat window).

Definition np_mean (l : list Q) : Q :=
  Qsum l / inject_Z (Z.of_nat (length l)).

(** The variance, whose square root is [l.std()]; exact, so without the
    overflow or underflow that the squares can meet in binary64. *)
Definition np_var (l : list Q) : Q :=
  let m := np_mean l in
  np_mean (map (fun x => (x - m) * (x - m)) l).

(** [x > mean + f * std] for the [std >= 0] whose square is [var], decided
    without taking the root: with [d = x - mean], for [f >= 0] it is
    [d > 0] and [d^2 > f^2 var]; for [f < 0] it is [d > 0] or
    [d^2 < f^2 var] (see [above_thresh_sqrt]). *)
Definition above_thresh (x mean f var : Q) : bool :=
  let d := x - mean in
  if Qle_bool 0 f then Qltb 0 d && Qltb (f * f * var) (d * d)
  else Qltb 0 d || Qltb (d * d) (f * f * var).

(** The test of the candidate loop at position [i], with Python's
    short-circuit [and]. *)
Definition is_candidate (smooth : list Q) (mean f var : Q) (i : Z)
  : result bool :=
  s ← py_getitem smooth i;
  if above_thresh s mean f var then
    p ← py_getitem smooth (i - 1);
    if Qle_bool p s then
      q ← py_getitem smooth (i + 1);
      Ok (Qle_bool q s)
    else Ok false
  else Ok false.

Fixpoint find_candidates (smooth : list Q) (mean f var : Q) (l : list Z)
  : result (list Z) :=
  match l with
  | [] => Ok []
  | i :: l' =>
      b ← is_candidate smooth mean f var i;
      rest ← find_candidates smooth mean f var l';
      Ok (if (b : bool) then i :: rest else rest)
  end.

(** [peaks[-1] = idx] *)
Definition py_set_last (peaks : list Z) (idx : Z) : result (list Z) :=
  match peaks with
  | [] => Raise IndexError
  | _ => Ok (removelast peaks ++ [idx])
  end.

(** One turn of the spacing loop on the state [(peaks, last_idx)]. *)
Definition spacing_step (smooth : list Q) (min_dist : Z)
    (st : list Z * Z) (idx : Z) : result (list Z * Z) :=
  let '(peaks, last_idx) := st in
  if (min_dist <=? idx - last_idx)%Z then Ok (peaks ++ [idx], idx)
  else
    s ← py_getitem smooth idx;
    l ← py_getitem smooth last_idx;
    if Qltb l s then
      peaks' ← py_set_last peaks idx;
      Ok (peaks', idx)
    else Ok (peaks, last_idx).

Fixpoint enforce_spacing (smooth : list Q) (min_dist : Z)
    (st : list Z * Z) (candidates : list Z) : result (list Z * Z) :=
  match candidates with
  | [] => Ok st
  | idx :: rest =>
      st' ← spacing_step smooth min_dist st idx;
      enforce_spacing smooth min_dist st' rest
  end.

Definition smooth_and_detect_peaks (signal : list Q)
    (fs thresh_factor min_distance_sec : Q) : result (list Z) :=
  let n := Z.of_nat (length signal) in
  if (n <? 3)%Z then Ok []
  else
    let window := Z.max 3 (py_int ((5 # 100) * fs)) in
    smooth ← (if (1 <? window)%Z
              then np_convolve_same signal (box_kernel window)
              else Ok signal);
    let mean := np_mean smooth in
    let var0 := np_var smooth in
    (* [std = float(smooth.std()) or 1.0] *)
    let var := if Qeq_bool var0 0 then 1 else var0 in
    candidates ← find_candidates smooth mean thresh_factor var
                   (py_range 1 (n - 1));
    match candidates with
    | [] => Ok []
    | _ =>
        let min_dist := py_int (min_distance_sec * fs) in
        '(peaks, _) ← enforce_spacing smooth min_dist ([], (- min_dist)%Z)
                        candidates;
        Ok peaks
    end.

(** The window of [segment_around_peaks] for the peak [p]. *)
Definition segment_bounds (n pre post p : Z) : Z * Z :=
  (Z.max 0 (p - pre), Z.min n (p + post)).

Fixpoint segment_loop (data6 : ndarray) (n pre post : Z)
    (segments : list ndarray) (peaks : list Z) : list ndarray :=
  match peaks with
  | [] => segments
  | p :: rest =>
      let '(start, stop) := segment_bounds n pre post p in
      if (stop <=? start)%Z then segment_loop data6 n pre post segments rest
      else
        let seg := {| ncols := ncols data6;
                      rows := py_slice (rows data6) start stop |} in
        segment_loop data6 n pre post (segments ++ [seg]) rest
  end.

Definition segment_around_peaks (data6 : ndarray) (peaks : list Z)
    (fs pre_sec post_sec : Q) : result (list ndarray) :=
  let n := Z.of_nat (nrows data6) in
  if negb (ncols data6 =? 6)%nat then Raise AssertionError
  else
    let pre := py_int (pre_sec * fs) in
    let post := py_int (post_sec * fs) in
    Ok (segment_loop data6 n pre post [] peaks).

Definition to_fixed_length (seg : ndarray) (target_len : Z) : result ndarray :=
  let t := Z.of_nat (nrows seg) in
  let d := ncols seg in
  if negb (d =? 6)%nat then Raise ValueError_channels
  else if (t =? target_len)%Z then Ok seg
  else
    let old_x := np_linspace 0 1 t in
    (* [np.linspace] and [np.empty] reject a negative size *)
    if (target_len <? 0)%Z then Raise ValueError_numpy
    else
      let new_x := np_linspace 0 1 target_len in
      interp_columns new_x old_x seg d.

(** ** [train_cnn.py] *)

Definition FIXED_LENGTH : Z := 128.

Definition pad_or_truncate (sample : ndarray) (length : Z) : ndarray :=
  let t := Z.of_nat (nrows sample) in
  let d := ncols sample in
  if (t =? length)%Z then sample
  else if (length <? t)%Z then
    {| ncols := d; rows := py_slice (rows sample) 0 length |}
  else
    {| ncols := d;
       rows := rows sample ++ repeat (repeat 0 d) (Z.to_nat (length - t)) |}.

(** The time-scaling step of [augment_sample]: [aug] resampled to
    [max(2, int(t * scale))] time steps. *)
Definition time_scale (aug : ndarray) (scale : Q) : result ndarray :=
  let t := Z.of_nat (nrows aug) in
  let d := ncols aug in
  let new_t := py_int (inject_Z t * scale) in
  let new_t := if (new_t <? 2)%Z then 2%Z else new_t in
  let orig_idx := np_linspace 0 (inject_Z (t - 1)) t in
  let new_idx := np_linspace 0 (inject_Z (t - 1)) new_t in
  interp_columns new_idx orig_idx aug d.

(** The first two steps of [augment_sample]: [aug = sample + noise], then
    [aug = aug * gains[np.newaxis, :]]. *)
Definition noise_and_gain (sample noise : ndarray) (gains : list Q) : ndarray :=
  let aug := {| ncols := ncols sample;
                rows := zip_with (zip_with Qplus) (rows sample) (rows noise) |} in
  {| ncols := ncols aug;
     rows := map (fun r => zip_with Qmult r gains) (rows aug) |}.

(** [augment_sample]; the three random draws ([noise], of the shape of the
    sample, [gains], one per channel, and [scale]) are arguments. *)
Definition augment_sample (sample noise : ndarray) (gains : list Q) (scale : Q)
  : result ndarray :=
  let aug := noise_and_gain sample noise gains in
  aug_scaled ← time_scale aug scale;
  Ok (pad_or_truncate aug_scaled FIXED_LENGTH).

(** An array of shape [(n, item_rows, item_cols)]: [n] samples of one
    shape, as [np.stack] builds it. *)
Record ndarray3 : Type :=
  mk_array3 { item_rows : nat; item_cols : nat; items : list ndarray }.

(** Every sample has the shape that the array records. *)
Definition wf_array3 (x : ndarray3) : Prop :=
  List.Forall (fun a => nrows a = item_rows x ∧ ncols a = item_cols x)
    (items x).

(** [np.stack(arrays, axis=0)]: the list must not be empty and all arrays
    must have the same shape. *)
Definition np_stack (arrays : list ndarray) : result ndarray3 :=
  match arrays with
  | [] => Raise ValueError_numpy
  | a :: rest =>
      if forallb (fun b => (nrows b =? nrows a)%nat && (ncols b =? ncols a)%nat)
           rest
      then Ok {| item_rows := nrows a; item_cols := ncols a; items := arrays |}
      else Raise ValueError_numpy
  end.

(** [np.concatenate([x, y], axis=0)]: the shapes must agree but for the
    first axis. *)
Definition np_concatenate (x y : ndarray3) : result ndarray3 :=
  if (item_rows x =? item_rows y)%nat && (item_cols x =? item_cols y)%nat
  then Ok {| item_rows := item_rows x; item_cols := item_cols x;
             items := items x ++ items y |}
  else Raise ValueError_numpy.

(** [augment_to_target] of [prepare_split_for_class], for the class
    [class_index]; [draw i] holds the three random draws of the call of
    [augment_sample] in turn [i] of the loop. *)
Definition augment_to_target (class_index : Z)
    (draw : nat → ndarray * list Q * Q)
    (X_split : ndarray3) (y_split : list Z) (target : Z)
  : result (ndarray3 * list Z) :=
  let n_current := Z.of_nat (length (items X_split)) in
  if (target <=? n_current)%Z then Ok (X_split, y_split)
  else
    let needed := (target - n_current)%Z in
    aug_list ← mapM (fun i =>
                  if (n_current =? 0)%Z then Raise ZeroDivisionError
                  else
                    base ← py_getitem (items X_split) (i mod n_current)%Z;
                    let '(noise, gains, scale) := draw (Z.to_nat i) in
                    augment_sample base noise gains scale)
                (py_range 0 needed);
    stacked ← np_stack aug_list;
    X_aug ← np_concatenate X_split stacked;
    Ok (X_aug, repeat class_index (length (items X_aug))).

(** ** Output directories: [process_class] and
       [augment_from_new_phone_dataset.py] *)

Open Scope string_scope.

Fixpoint zeros (n : nat) : string :=
  match n with
  | O => ""
  | S n' => String "0" (zeros n')
  end.

(** [f"{i:03d}"]: decimal digits, zero-padded to width 3, the sign counted
    in the width. *)
Definition format_03d (i : Z) : string :=
  let digits := NilEmpty.string_of_uint (N.to_uint (Z.to_N (Z.abs i))) in
  if (i <? 0)%Z then String "-" (zeros (2 - String.length digits) +:+ digits)
  else zeros (3 - String.length digits) +:+ digits.

(** [f"{label}_{idx:03d}.csv"] *)
Definition segment_file_name (label : string) (idx : Z) : string :=
  label +:+ "_" +:+ format_03d idx +:+ ".csv".

Definition ends_with (suffix s : string) : bool :=
  String.eqb
    (substring (String.length s - String.length suffix)
       (String.length suffix) s)
    suffix.

(** A file name matched by the pattern [f"{class_name}_*.csv"], for a class
    name without pattern characters. *)
Definition glob_match (class_name name : string) : bool :=
  String.prefix (class_name +:+ "_") name
  && ends_with ".csv" name
  && (String.length class_name + 5 <=? String.length name)%nat.

(** [csv_path.stem] of a name that ends in [.csv]. *)
Definition stem (name : string) : string :=
  substring 0 (String.length name - 4) name.

(** [s.split(c)] *)
Fixpoint split_on (c : ascii) (s : string) : list string :=
  match s with
  | "" => [""]
  | String a s' =>
      match split_on c s' with
      | [] => [""]
      | w :: ws => if Ascii.eqb a c then "" :: w :: ws else String a w :: ws
      end
  end.

Definition is_space (a : ascii) : bool :=
  let n := nat_of_ascii a in
  ((9 <=? n) && (n <=? 13) || (28 <=? n) && (n <=? 32))%nat.

Fixpoint lstrip (s : string) : string :=
  match s with
  | "" => ""
  | String a s' => if is_space a then lstrip s' else s
  end.

Fixpoint rstrip (s : string) : string :=
  match s with
  | "" => ""
  | String a s' =>
      let r := rstrip s' in
      if is_space a && String.eqb r "" then "" else String a r
  end.

Definition parse_digits (s : string) : option Z :=
  match s with
  | "" => None
  | _ =>
      match NilEmpty.uint_of_string s with
      | Some d => Some (Z.of_N (N.of_uint d))
      | None => None
      end
  end.

(** [int(s)] on an ASCII string without underscores: surrounding white
    space, an optional sign, then decimal digits; [None] stands for
    [ValueError]. *)
Definition py_int_of_string (s : string) : option Z :=
  match rstrip (lstrip s) with
  | "" => None
  | String a r =>
      if Ascii.eqb a "+" then parse_digits r
      else if Ascii.eqb a "-" then Z.opp <$> parse_digits r
      else parse_digits (String a r)
  end.

(** The index carried by a file name of the class directory, when the loop
    of [next_index_for_class] finds one. *)
Definition parsed_index (class_name name : string) : option Z :=
  if glob_match class_name name then
    match split_on "_" (stem name) with
    | [_; part] => py_int_of_string part
    | _ => None
    end
  else None.

(** [next_index_for_class], on the content [dir] of [OUT_ROOT / class_name]
    (file name to file content). *)
Definition next_index_for_class (class_name : string)
    (dir : gmap string ndarray) : Z :=
  let max_idx :=
    fold_left
      (fun max_idx name =>
         match parsed_index class_name name with
         | Some idx => if (max_idx <? idx)%Z then idx else max_idx
         | None => max_idx
         end)
      (map fst (map_to_list dir)) 0%Z in
  (max_idx + 1)%Z.

(** The loop that both drivers run over [segments]: normalise, write to
    [f"{label}_{idx:03d}.csv"], move to the next index.  It returns the
    directory as the loop leaves it and the count, or the exception that
    stopped it. *)
Fixpoint write_segments (label : string) (segments : list ndarray)
    (idx count : Z) (dir : gmap string ndarray)
  : gmap string ndarray * result Z :=
  match segments with
  | [] => (dir, Ok count)
  | seg :: rest =>
      match to_fixed_length seg SEGMENT_SAMPLES with
      | Raise e => (dir, Raise e)
      | Ok fixed =>
          write_segments label rest (idx + 1) (count + 1)
            (<[segment_file_name label idx := fixed]> dir)
      end
  end.

(** [process_class], from [segments] on:
    [for idx, seg in enumerate(segments, start=1)]. *)
Definition process_class (class_name : string) (segments : list ndarray)
    (dir : gmap string ndarray) : gmap string ndarray * result Z :=
  write_segments class_name segments 1 0 dir.

(** [process_new_folder], from [segments] on:
    [next_idx = next_index_for_class(label)] and [next_idx += 1]. *)
Definition process_new_folder (label : string) (segments : list ndarray)
    (dir : gmap string ndarray) : gmap string ndarray * result Z :=
  let next_idx := next_index_for_class label dir in
  write_segments label segments next_idx 0 dir.

Close Scope string_scope.

(** The grid of [resample_to_grid] for a cleaned trace that starts at
    [t_min] and ends at [t_max]. *)
Definition resample_grid (t_min t_max fs : Q) : list Q :=
  np_arange t_min (t_max + (1 # 2) * (1 / fs)) (1 / fs).



(** ** Definitions that follow the specification's words *)

(** The nearest integer, ties to even: Python's [round]. *)
Definition round_half_even (x : Q) : Z :=
  let f := Qfloor x in
  let r := x - inject_Z f in
  if Qltb r (1 # 2) then f
  else if Qltb (1 # 2) r then (f + 1)%Z
  else if Z.even f then f else (f + 1)%Z.

(** The window of the Window Segmenter as the specification words it, with
    [round] in place of [int]. *)
Definition spec_segment_bounds (n : Z) (fs pre_sec post_sec : Q) (p : Z)
  : Z * Z :=
  (Z.max 0 (p - round_half_even (pre_sec * fs)),
   Z.min n (p + round_half_even (post_sec * fs))).

(** The Synthetic Augmentor as the specification words its last step: the
    warped signal is brought back to the canonical length by the
    Fixed-Length Normalizer. *)
Definition spec_augment_sample (sample noise : ndarray) (gains : list Q)
    (scale : Q) : result ndarray :=
  let aug := noise_and_gain sample noise gains in
  aug_scaled ← time_scale aug scale;
  to_fixed_length aug_scaled FIXED_LENGTH.


(** A signal of [n] zeros but for the value [h] at position [k]. *)
Definition spike_signal (n k : nat) (h : Q) : list Q :=
  repeat 0 k ++ [h] ++ repeat 0 (n - k - 1).

(** [n] rows of [d] entries, all equal to [v]. *)
Definition constant_array (n d : nat) (v : Q) : ndarray :=
  {| ncols := d; rows := repeat (repeat v d) n |}.

(** ** Predicates used in the proofs *)

(** The order of the sorted trace. *)
Definition time_le (a b : Q * list Q) : Prop := fst a <= fst b.

(** The test of the candidate loop as a boolean, for positions whose two
    neighbours exist. *)
Definition candidate_test (smooth : list Q) (mean f var : Q) (i : Z) : bool :=
  let s := nth (Z.to_nat i) smooth 0 in
  above_thresh s mean f var
  && Qle_bool (nth (Z.to_nat (i - 1)) smooth 0) s
  && Qle_bool (nth (Z.to_nat (i + 1)) smooth 0) s.

(** The state of the spacing loop: the kept peaks are increasing and among
    the admissible positions, the last one is [last_idx], and every
    candidate still to come is beyond it. *)
Definition spacing_inv (ok : Z → Prop) (min_dist : Z)
    (st : list Z * Z) (candidates : list Z) : Prop :=
  StronglySorted Z.lt candidates ∧ List.Forall ok candidates ∧
  ((fst st = [] ∧ snd st = (- min_dist)%Z) ∨
   (∃ ps, fst st = ps ++ [snd st]
          ∧ StronglySorted Z.lt (fst st) ∧ List.Forall ok (fst st)
          ∧ List.Forall (fun c => (snd st < c)%Z) candidates)).

(** The positions of a smoothed plateau of [width] samples that begins at
    [start]. *)
Definition plateau (start width : nat) (i : Z) : bool :=
  ((Z.of_nat start <=? i) && (i <? Z.of_nat start + Z.of_nat width))%Z.

(** Every character of [s] passes the test [p]. *)
Fixpoint string_forall (p : ascii → bool) (s : string) : bool :=
  match s with
  | EmptyString => true
  | String a s' => p a && string_forall p s'
  end.

Definition is_digit (a : ascii) : bool :=
  let n := nat_of_ascii a in ((48 <=? n) && (n <=? 57))%nat.

(** A class label without the separator [_]. *)
Definition no_underscore (label : string) : bool :=
  string_forall (fun a => negb (Ascii.eqb a "_")) label.

(** The smoothing step of [smooth_and_detect_peaks]. *)
Definition moving_average (signal : list Q) (fs : Q) : result (list Q) :=
  let window := Z.max 3 (py_int ((5 # 100) * fs)) in
  if (1 <? window)%Z then np_convolve_same signal (box_kernel window)
  else Ok signal.

(** The variance that the threshold of [smooth_and_detect_peaks] uses:
    [std = float(smooth.std()) or 1.0]. *)
Definition guarded_var (smooth : list Q) : Q :=
  if Qeq_bool (np_var smooth) 0 then 1 else np_var smooth.

(** Neighbours in [l] are at least [d] apart. *)
Definition min_gap (d : Z) (l : list Z) : Prop :=
  ∀ i a b, l !! i = Some a → l !! S i = Some b → (a + d <= b)%Z.

(** * Properties *)

(** ** The result monad and array shapes *)

Lemma mapM_ok_map {A B} (f : A → result B) (g : A → B) (l : list A) :
  (∀ x, In x l → f x = Ok (g x)) → mapM f l = Ok (map g l).
Proof.
  induction l as [|x l IH]; intros Hf; simpl; [reflexivity|].
  rewrite (Hf x (or_introl eq_refl)); simpl.
  rewrite IH by (intros y Hy; apply Hf; now right).
  reflexivity.
Qed.

Lemma length_column j a : length (column j a) = nrows a.
Proof. unfold column, nrows. now rewrite length_map. Qed.

Lemma np_interp_ok x xp fp :
  length xp = length fp → xp ≠ [] →
  np_interp x xp fp = Ok (map (fun xi => interp_one xi xp fp) x).
Proof.
  intros Hlen Hne. unfold np_interp.
  rewrite (proj2 (Nat.eqb_eq _ _) Hlen). simpl.
  destruct xp; [congruence | reflexivity].
Qed.

Lemma interp_columns_ok x xp a d :
  length xp = nrows a → xp ≠ [] →
  interp_columns x xp a d =
    Ok (from_columns (length x)
          (map (fun i => map (fun xi => interp_one xi xp (column i a)) x)
               (seq 0 d))).
Proof.
  intros Hlen Hne. unfold interp_columns.
  rewrite (mapM_ok_map _
             (fun i => map (fun xi => interp_one xi xp (column i a)) x)).
  - reflexivity.
  - intros i _. apply np_interp_ok; [now rewrite length_column | exact Hne].
Qed.

Lemma interp_columns_raise x a d :
  (0 < d)%nat → interp_columns x [] a d = Raise ValueError_numpy.
Proof.
  intros Hd. unfold interp_columns. destruct d as [|d]; [lia|].
  simpl. unfold np_interp. simpl. now destruct (column 0 a).
Qed.

Lemma nrows_from_columns n cols : nrows (from_columns n cols) = n.
Proof. unfold nrows, from_columns; simpl. now rewrite length_map, length_seq. Qed.

Lemma wf_from_columns n cols : wf_array (from_columns n cols).
Proof.
  unfold wf_array, from_columns; simpl.
  apply List.Forall_forall. intros r Hr. apply in_map_iff in Hr as (i & <- & _).
  now rewrite length_map.
Qed.

Lemma length_np_linspace a b num :
  (0 <= num)%Z → length (np_linspace a b num) = Z.to_nat num.
Proof.
  intros Hn. unfold np_linspace.
  destruct (Z.eqb_spec num 1) as [->|Hne]; [reflexivity|].
  now rewrite length_map, length_seq.
Qed.

Lemma np_linspace_nonempty a b num : (0 < num)%Z → np_linspace a b num ≠ [].
Proof.
  intros Hn Hnil. apply (f_equal (@length Q)) in Hnil.
  rewrite length_np_linspace in Hnil by lia. simpl in Hnil. lia.
Qed.

(** ** Fixed-Length Normalizer *)

Lemma to_fixed_length_same seg L :
  ncols seg = 6%nat → Z.of_nat (nrows seg) = L → to_fixed_length seg L = Ok seg.
Proof.
  intros Hd HL. unfold to_fixed_length. rewrite Hd, HL. simpl.
  now rewrite Z.eqb_refl.
Qed.

Lemma to_fixed_length_shape seg L r :
  to_fixed_length seg L = Ok r →
  ncols r = 6%nat ∧ Z.of_nat (nrows r) = L.
Proof.
  unfold to_fixed_length.
  destruct (Nat.eqb_spec (ncols seg) 6) as [Hd|Hd]; simpl; [|discriminate].
  destruct (Z.eqb_spec (Z.of_nat (nrows seg)) L) as [HL|HL].
  - intros [= <-]. now split.
  - destruct (Z.ltb_spec L 0) as [Hneg|Hpos]; [discriminate|].
    destruct (nrows seg) as [|T] eqn:HT.
    + rewrite Hd. unfold np_linspace at 1. simpl.
      now rewrite interp_columns_raise by lia.
    + rewrite interp_columns_ok.
      * intros [= <-]. rewrite nrows_from_columns. unfold from_columns; simpl.
        rewrite length_map, length_seq, length_np_linspace by lia. split; [exact Hd | lia].
      * rewrite length_np_linspace by lia. lia.
      * apply np_linspace_nonempty. lia.
Qed.

Lemma to_fixed_length_total seg L :
  ncols seg = 6%nat → (1 <= nrows seg)%nat → (0 <= L)%Z →
  ∃ r, to_fixed_length seg L = Ok r.
Proof.
  intros Hd HT HL. unfold to_fixed_length. rewrite Hd. simpl.
  destruct (Z.eqb_spec (Z.of_nat (nrows seg)) L); [eauto|].
  destruct (Z.ltb_spec L 0); [lia|].
  rewrite interp_columns_ok; [eauto | |].
  - rewrite length_np_linspace by lia. lia.
  - apply np_linspace_nonempty. lia.
Qed.

(** C7. A segment of shape (L, 6) is returned as it is, normalising twice
    to the same length is normalising once, and a segment with at least one
    row and six channels is always normalised to [L] rows. *)
Theorem to_fixed_length_idempotent (seg : ndarray) (L : Z) :
  (ncols seg = 6%nat → Z.of_nat (nrows seg) = L →
   to_fixed_length seg L = Ok seg) ∧
  (to_fixed_length seg L ≫= (fun r => to_fixed_length r L))
    = to_fixed_length seg L ∧
  (ncols seg = 6%nat → (1 <= nrows seg)%nat → (0 <= L)%Z →
   ∃ r, to_fixed_length seg L = Ok r ∧ Z.of_nat (nrows r) = L
        ∧ to_fixed_length r L = Ok r).
Proof.
  split; [apply to_fixed_length_same|]. split.
  - destruct (to_fixed_length seg L) as [r|e] eqn:Hr; simpl; [|reflexivity].
    apply to_fixed_length_shape in Hr as [Hd HL].
    now apply to_fixed_length_same.
  - intros Hd HT HL.
    destruct (to_fixed_length_total seg L Hd HT HL) as [r Hr].
    exists r. split; [exact Hr|].
    apply to_fixed_length_shape in Hr as [Hd' HL'].
    split; [exact HL' | now apply to_fixed_length_same].
Qed.

Lemma to_fixed_length_idempotent_witness :
  to_fixed_length (constant_array 3 6 (1 # 2)) 3
    = Ok (constant_array 3 6 (1 # 2)) ∧
  ∃ r, to_fixed_length (constant_array 2 6 (1 # 2)) 5 = Ok r
       ∧ Z.of_nat (nrows r) = 5%Z ∧ to_fixed_length r 5 = Ok r.
Proof.
  split.
  - apply (proj1 (to_fixed_length_idempotent (constant_array 3 6 (1 # 2)) 3));
      reflexivity.
  - apply (proj2 (proj2 (to_fixed_length_idempotent
                           (constant_array 2 6 (1 # 2)) 5)));
      [reflexivity | vm_compute; lia | lia].
Defined.

(** ** Python indexing *)

Lemma py_getitem_first {A} (x : A) l : py_getitem (x :: l) 0 = Ok x.
Proof.
  unfold py_getitem. simpl.
  destruct (Z.leb_spec (Z.pos (Pos.of_succ_nat (length l))) 0); [lia|].
  reflexivity.
Qed.

Lemma last_cons_default {A} (a x y : A) l :
  List.last (a :: l) x = List.last (a :: l) y.
Proof.
  revert a. induction l as [|b l IH]; intros a; [reflexivity|].
  change (List.last (b :: l) x = List.last (b :: l) y). apply IH.
Qed.

Lemma last_cons_shift {A} (a x : A) l : List.last (a :: l) x = List.last l a.
Proof.
  destruct l as [|b l]; [reflexivity|].
  change (List.last (b :: l) x = List.last (b :: l) a).
  apply last_cons_default.
Qed.

Lemma nth_error_last {A} (x : A) l :
  nth_error (x :: l) (length l) = Some (List.last l x).
Proof.
  revert x. induction l as [|y l IH]; intros x; [reflexivity|].
  simpl length. change (nth_error (x :: y :: l) (S (length l)))
    with (nth_error (y :: l) (length l)).
  rewrite IH. now rewrite last_cons_shift.
Qed.

Lemma py_getitem_last {A} (x : A) l :
  py_getitem (x :: l) (-1) = Ok (List.last l x).
Proof.
  unfold py_getitem.
  change (-1 <? 0)%Z with true. cbv iota.
  set (n := Z.of_nat (length (x :: l))).
  assert (Hn : n = (Z.of_nat (length l) + 1)%Z) by (unfold n; simpl length; lia).
  destruct (Z.ltb_spec (-1 + n) 0); [lia|].
  destruct (Z.leb_spec n (-1 + n)); [lia|]. simpl orb. cbv iota.
  replace (Z.to_nat (-1 + n)) with (length l) by lia.
  now rewrite nth_error_last.
Qed.

Lemma py_getitem_nil {A} i : py_getitem (@nil A) i = Raise IndexError.
Proof.
  unfold py_getitem. change (Z.of_nat (length (@nil A))) with 0%Z.
  destruct (i <? 0)%Z eqn:Hi.
  - rewrite Z.add_0_r, Hi. reflexivity.
  - rewrite Hi. apply Z.ltb_ge in Hi.
    rewrite (proj2 (Z.leb_le 0 i) Hi). reflexivity.
Qed.

(** ** Grid Resampler *)


Lemma Qeq_bool_false x y : ¬ x == y → Qeq_bool x y = false.
Proof.
  intros H. destruct (Qeq_bool x y) eqn:E; [|reflexivity].
  apply Qeq_bool_eq in E. contradiction.
Qed.

(** What [resample_to_grid] returns on a trace whose cleaned times are
    [t0 :: rest]. *)
Lemma resample_to_grid_ok t xyz fs t0 rest :
  nrows xyz = length t → ¬ fs == 0 → cleaned_times t xyz = t0 :: rest →
  ∃ out, resample_to_grid t xyz fs
           = Ok (resample_grid t0 (List.last rest t0) fs, out)
         ∧ nrows out = length (resample_grid t0 (List.last rest t0) fs)
         ∧ ncols out = ncols xyz.
Proof.
  intros Hshape Hfs Hclean. unfold resample_to_grid.
  rewrite (proj2 (Nat.eqb_eq _ _) Hshape). simpl negb. cbv iota zeta.
  rewrite (Qeq_bool_false _ _ Hfs).
  change (map fst (clean_trace t xyz)) with (cleaned_times t xyz).
  rewrite Hclean, py_getitem_first. simpl mbind.
  rewrite py_getitem_last. simpl mbind.
  fold (resample_grid t0 (List.last rest t0) fs).
  rewrite interp_columns_ok.
  - simpl. eexists. split; [reflexivity|].
    rewrite nrows_from_columns. split; [reflexivity|].
    unfold from_columns; simpl. now rewrite length_map, length_seq.
  - rewrite <- Hclean. unfold nrows, cleaned_times; simpl.
    now rewrite !length_map.
  - discriminate.
Qed.

Lemma resample_to_grid_empty t xyz fs :
  nrows xyz = length t → ¬ fs == 0 → cleaned_times t xyz = [] →
  resample_to_grid t xyz fs = Raise IndexError.
Proof.
  intros Hshape Hfs Hclean. unfold resample_to_grid.
  rewrite (proj2 (Nat.eqb_eq _ _) Hshape). simpl negb. cbv iota zeta.
  rewrite (Qeq_bool_false _ _ Hfs).
  change (map fst (clean_trace t xyz)) with (cleaned_times t xyz).
  rewrite Hclean, py_getitem_nil. reflexivity.
Qed.

Lemma resample_grid_single t0 fs :
  ¬ fs == 0 → ∃ g, resample_grid t0 t0 fs = [g] ∧ g == t0.
Proof.
  intros Hfs. unfold resample_grid, np_arange.
  assert (Hlen : Qceiling ((t0 + (1 # 2) * (1 / fs) - t0) / (1 / fs)) = 1%Z).
  { rewrite (Qceiling_comp _ (1 # 2)); [reflexivity|]. field. exact Hfs. }
  rewrite Hlen. simpl. eexists. split; [reflexivity|]. ring.
Qed.

(** C2 (as amended). The Grid Resampler has no check on the number of
    distinct timestamps: an empty trace makes it fail with [IndexError] at
    [t[0]], and a trace whose cleaned times are a single timestamp [t0] is
    resampled to the one-point grid [[t0]] with one row. *)
Theorem resample_to_grid_short_trace (t : list Q) (xyz : ndarray) (fs : Q) :
  nrows xyz = length t → ¬ fs == 0 →
  (cleaned_times t xyz = [] → resample_to_grid t xyz fs = Raise IndexError) ∧
  (∀ t0, cleaned_times t xyz = [t0] →
     ∃ g out, resample_to_grid t xyz fs = Ok ([g], out)
              ∧ g == t0 ∧ nrows out = 1%nat ∧ ncols out = ncols xyz).
Proof.
  intros Hshape Hfs. split.
  - now apply resample_to_grid_empty.
  - intros t0 Hclean.
    destruct (resample_to_grid_ok t xyz fs t0 [] Hshape Hfs Hclean)
      as (out & Hres & Hrows & Hcols).
    simpl in Hres, Hrows.
    destruct (resample_grid_single t0 fs Hfs) as (g & Hg & Hgeq).
    rewrite Hg in Hres, Hrows.
    exists g, out. repeat split; assumption.
Qed.

Lemma resample_to_grid_short_trace_witness :
  ∃ g out,
    resample_to_grid [5 # 4; 5 # 4] (mk_array 3 [[1; 2; 3]; [4; 5; 6]]) 100
      = Ok ([g], out)
    ∧ g == 5 # 4 ∧ nrows out = 1%nat ∧ ncols out = 3%nat.
Proof.
  apply (proj2 (resample_to_grid_short_trace
                  [5 # 4; 5 # 4] (mk_array 3 [[1; 2; 3]; [4; 5; 6]]) 100
                  eq_refl ltac:(discriminate)) (5 # 4)).
  reflexivity.
Defined.

(** C2 (counterexample). A trace with a single timestamp is resampled, not
    rejected. *)
Lemma resample_to_grid_single_sample_returns :
  length (cleaned_times [0] (mk_array 3 [[1; 2; 3]])) = 1%nat ∧
  resample_to_grid [0] (mk_array 3 [[1; 2; 3]]) 1
    = Ok ([0], mk_array 3 [[1; 2; 3]]).
Proof. split; reflexivity. Qed.

Lemma Qle_bool_true x y : x <= y → Qle_bool x y = true.
Proof. apply Qle_bool_iff. Qed.

Lemma Qle_bool_false x y : y < x → Qle_bool x y = false.
Proof.
  intros H. destruct (Qle_bool x y) eqn:E; [|reflexivity].
  apply Qle_bool_iff in E. lra.
Qed.

Lemma Qltb_true x y : x < y → Qltb x y = true.
Proof. intros H. unfold Qltb. now rewrite Qle_bool_false. Qed.

Lemma Qltb_false x y : y <= x → Qltb x y = false.
Proof. intros H. unfold Qltb. now rewrite Qle_bool_true. Qed.

Lemma Qltb_lt x y : Qltb x y = true ↔ x < y.
Proof.
  split; [|apply Qltb_true].
  intros H. destruct (Qlt_le_dec x y) as [Hlt|Hle]; [exact Hlt|].
  rewrite Qltb_false in H by exact Hle. discriminate.
Qed.

Lemma Qltb_ge x y : Qltb x y = false ↔ y <= x.
Proof.
  split; [|apply Qltb_false].
  intros H. destruct (Qlt_le_dec x y) as [Hlt|Hle]; [|exact Hle].
  rewrite Qltb_true in H by exact Hlt. discriminate.
Qed.

(** *** Cleaning: the cleaned times are strictly increasing *)

Lemma insert_by_time_Forall (P : Q * list Q → Prop) x l :
  P x → List.Forall P l → List.Forall P (insert_by_time x l).
Proof.
  intros Hx Hl. induction Hl as [|y l Hy Hl IH]; simpl.
  - now constructor.
  - destruct (Qle_bool (fst x) (fst y)); repeat constructor; assumption.
Qed.

Lemma insert_by_time_sorted x l :
  StronglySorted time_le l → StronglySorted time_le (insert_by_time x l).
Proof.
  induction 1 as [|y l Hs IH Hy]; simpl.
  - repeat constructor.
  - destruct (Qle_bool (fst x) (fst y)) eqn:E.
    + apply Qle_bool_iff in E. constructor; [now constructor|].
      constructor; [exact E|].
      eapply List.Forall_impl; [|exact Hy].
      intros z Hz. unfold time_le in *. lra.
    + assert (fst y < fst x).
      { destruct (Qlt_le_dec (fst y) (fst x)) as [Hlt|Hle]; [exact Hlt|].
        rewrite Qle_bool_true in E by exact Hle. discriminate. }
      constructor; [exact IH|].
      apply insert_by_time_Forall; [unfold time_le; lra | exact Hy].
Qed.

Lemma sort_by_time_sorted l : StronglySorted time_le (sort_by_time l).
Proof.
  induction l as [|x l IH]; simpl; [constructor|].
  now apply insert_by_time_sorted.
Qed.

Lemma mask_after_increasing prev l :
  StronglySorted time_le l → List.Forall (fun x => prev <= fst x) l →
  StronglySorted Qlt (map fst (mask_after prev l))
  ∧ List.Forall (fun q => prev < q) (map fst (mask_after prev l)).
Proof.
  intros Hs. revert prev. induction Hs as [|x l Hs IH Hx]; intros prev Hp; simpl.
  - split; constructor.
  - apply List.Forall_cons_iff in Hp as [Hpx Hpl].
    destruct (IH (fst x) Hx) as [IH1 IH2].
    destruct (Qltb prev (fst x)) eqn:E; simpl.
    + apply Qltb_lt in E. split.
      * constructor; assumption.
      * constructor; [exact E|].
        eapply List.Forall_impl; [|exact IH2]. simpl. intros q Hq. lra.
    + apply Qltb_ge in E. split; [exact IH1|].
      eapply List.Forall_impl; [|exact IH2]. simpl. intros q Hq. lra.
Qed.

Lemma cleaned_times_increasing t xyz : StronglySorted Qlt (cleaned_times t xyz).
Proof.
  unfold cleaned_times, clean_trace.
  pose proof (sort_by_time_sorted (combine t (rows xyz))) as Hs.
  destruct (sort_by_time (combine t (rows xyz))) as [|x l]; simpl; [constructor|].
  apply StronglySorted_inv in Hs as [Hs Hx].
  destruct (mask_after_increasing (fst x) l Hs) as [H1 H2].
  - eapply List.Forall_impl; [|exact Hx]. intros y Hy. exact Hy.
  - now constructor.
Qed.

Lemma last_cons_In {A} (a d : A) l : In (List.last (a :: l) d) (a :: l).
Proof.
  revert a. induction l as [|b l IH]; intros a; [now left|].
  right. change (In (List.last (b :: l) d) (b :: l)). apply IH.
Qed.


(** A strictly increasing trace is its own cleaned trace. *)
Lemma sort_by_time_increasing l :
  StronglySorted Qlt (map fst l) → sort_by_time l = l.
Proof.
  induction l as [|x l IH]; simpl; intros Hs; [reflexivity|].
  apply StronglySorted_inv in Hs as [Hs Hx].
  rewrite IH by exact Hs.
  destruct l as [|y l]; [reflexivity|]. simpl.
  apply List.Forall_cons_iff in Hx as [Hxy _].
  rewrite Qle_bool_true by lra. reflexivity.
Qed.

Lemma mask_after_increasing_id prev l :
  StronglySorted Qlt (prev :: map fst l) → mask_after prev l = l.
Proof.
  revert prev. induction l as [|x l IH]; intros prev Hs; [reflexivity|]. simpl.
  apply StronglySorted_inv in Hs as [Hs Hx].
  apply List.Forall_cons_iff in Hx as [Hpx _].
  rewrite Qltb_true by exact Hpx. f_equal. apply IH. exact Hs.
Qed.

Lemma cleaned_times_sorted_input t xyz :
  nrows xyz = length t → StronglySorted Qlt t → cleaned_times t xyz = t.
Proof.
  intros Hshape Hs. unfold cleaned_times, clean_trace.
  assert (Hfst : map fst (combine t (rows xyz)) = t).
  { unfold nrows in Hshape. revert Hshape. generalize (rows xyz).
    clear Hs. induction t as [|a t IH]; intros [|r rs] Hlen; simpl in *;
      try reflexivity; try discriminate.
    f_equal. apply IH. lia. }
  rewrite sort_by_time_increasing by (now rewrite Hfst).
  destruct (combine t (rows xyz)) as [|x l] eqn:E; [now rewrite <- Hfst|].
  simpl. rewrite mask_after_increasing_id; [exact Hfst|].
  simpl in Hfst. now rewrite Hfst.
Qed.

(** *** The grid *)

















(** ** Dual-Sensor Merger *)

Lemma insert_by_time_nonempty x l : insert_by_time x l ≠ [].
Proof. destruct l as [|y l]; simpl; [|destruct (Qle_bool _ _)]; discriminate. Qed.

Lemma cleaned_times_nonempty t xyz :
  nrows xyz = length t → t ≠ [] → cleaned_times t xyz ≠ [].
Proof.
  intros Hshape Ht. unfold cleaned_times, clean_trace, nrows in *.
  destruct t as [|a t]; [congruence|].
  destruct (rows xyz) as [|r rs]; [discriminate|]. simpl.
  pose proof (insert_by_time_nonempty (a, r) (sort_by_time (combine t rs))) as Hne.
  destruct (insert_by_time (a, r) (sort_by_time (combine t rs))); [congruence|].
  discriminate.
Qed.







(** ** Window Segmenter *)

Lemma py_int_nonneg x : 0 <= x → (0 <= py_int x)%Z.
Proof.
  intros Hx. unfold py_int. rewrite Qle_bool_true by exact Hx.
  change 0%Z with (Qfloor 0). now apply Qfloor_resp_le.
Qed.

Lemma length_py_slice {A} (l : list A) start stop :
  (0 <= start <= stop)%Z → (stop <= Z.of_nat (length l))%Z →
  py_slice l start stop
    = firstn (Z.to_nat (stop - start)) (skipn (Z.to_nat start) l)
  ∧ length (py_slice l start stop) = Z.to_nat (stop - start).
Proof.
  intros H1 H2. unfold py_slice.
  destruct (Z.ltb_spec start 0) as [|_]; [lia|].
  destruct (Z.ltb_spec stop 0) as [|_]; [lia|].
  rewrite !Z.min_l by lia. split; [reflexivity|].
  rewrite length_firstn, length_skipn. lia.
Qed.

Lemma segment_loop_filter data6 n pre post segments peaks :
  segment_loop data6 n pre post segments peaks =
    segments ++
    map (fun p => {| ncols := ncols data6;
                     rows := py_slice (rows data6)
                               (fst (segment_bounds n pre post p))
                               (snd (segment_bounds n pre post p)) |})
        (List.filter (fun p => (fst (segment_bounds n pre post p)
                                <? snd (segment_bounds n pre post p))%Z) peaks).
Proof.
  revert segments. induction peaks as [|p peaks IH]; intros segments; simpl.
  - now rewrite app_nil_r.
  - destruct (Z.leb_spec (Z.min n (p + post)) (Z.max 0 (p - pre))) as [Hle|Hlt].
    + rewrite (proj2 (Z.ltb_ge _ _) Hle). apply IH.
    + rewrite (proj2 (Z.ltb_lt _ _) Hlt). rewrite IH. simpl.
      now rewrite <- app_assoc.
Qed.

(** C9 (as amended). The window of a peak is
    [start = max(0, peak - int(pre_sec * fs))] and
    [end = min(T, peak + int(post_sec * fs))], with [int] truncating toward
    zero; the peaks with [end <= start] are skipped and the other segments
    are the slices [start:end], in peak order; no window starts below 0 or
    ends beyond [T], and a peak at index 0 with [pre_sec > 0] and [fs > 0]
    has a window that starts at 0. *)
Theorem segment_around_peaks_windows (data6 : ndarray) (peaks : list Z)
    (fs pre_sec post_sec : Q) :
  ncols data6 = 6%nat →
  let n := Z.of_nat (nrows data6) in
  let pre := py_int (pre_sec * fs) in
  let post := py_int (post_sec * fs) in
  let start p := Z.max 0 (p - pre) in
  let stop p := Z.min n (p + post) in
  segment_around_peaks data6 peaks fs pre_sec post_sec =
    Ok (map (fun p => {| ncols := 6;
                         rows := py_slice (rows data6) (start p) (stop p) |})
            (List.filter (fun p => (start p <? stop p)%Z) peaks))
  ∧ (∀ p, (start p < stop p)%Z →
       (0 <= start p)%Z ∧ (stop p <= n)%Z
       ∧ py_slice (rows data6) (start p) (stop p)
           = firstn (Z.to_nat (stop p - start p))
               (skipn (Z.to_nat (start p)) (rows data6))
       ∧ length (py_slice (rows data6) (start p) (stop p))
           = Z.to_nat (stop p - start p))
  ∧ (0 < pre_sec → 0 < fs → start 0%Z = 0%Z).
Proof.
  intros Hd. cbv zeta. split; [|split].
  - unfold segment_around_peaks. rewrite Hd. simpl negb. cbv iota.
    rewrite segment_loop_filter. rewrite Hd. reflexivity.
  - intros p Hp.
    assert (H0 : (0 <= Z.max 0 (p - py_int (pre_sec * fs)))%Z) by lia.
    assert (Hn : (Z.min (Z.of_nat (nrows data6)) (p + py_int (post_sec * fs))
                  <= Z.of_nat (nrows data6))%Z) by lia.
    split; [exact H0|]. split; [exact Hn|].
    apply length_py_slice; [lia | exact Hn].
  - intros Hpre Hfs.
    assert (0 <= pre_sec * fs) by (apply Qmult_le_0_compat; lra).
    pose proof (py_int_nonneg _ H). lia.
Qed.

Lemma segment_around_peaks_windows_witness :
  segment_around_peaks
    (mk_array 6 [repeat 1 6; repeat 2 6; repeat 3 6; repeat 4 6])
    [0%Z; 2%Z] 4 (1 # 2) (1 # 4)
  = Ok [mk_array 6 [repeat 1 6]; mk_array 6 [repeat 1 6; repeat 2 6; repeat 3 6]].
Proof.
  apply (proj1 (segment_around_peaks_windows
                  (mk_array 6 [repeat 1 6; repeat 2 6; repeat 3 6; repeat 4 6])
                  [0%Z; 2%Z] 4 (1 # 2) (1 # 4) eq_refl)).
Defined.

(** C9 (counterexample). With [fs = 1] and [pre_sec = post_sec = 0.75] the
    rounded offsets of the specification are 1 and give the peak at index 1
    the window [0:2]; the code truncates them to 0 and skips the peak. *)
Lemma segment_around_peaks_truncates :
  spec_segment_bounds 3 1 (3 # 4) (3 # 4) 1 = (0%Z, 2%Z) ∧
  segment_around_peaks
    (mk_array 6 [repeat 1 6; repeat 2 6; repeat 3 6]) [1%Z] 1 (3 # 4) (3 # 4)
  = Ok [].
Proof. split; reflexivity. Qed.

(** ** Synthetic Augmentor *)

Lemma nrows_time_scale aug scale :
  (1 <= nrows aug)%nat →
  ∃ warped,
    time_scale aug scale = Ok warped
    ∧ Z.of_nat (nrows warped)
        = Z.max 2 (py_int (inject_Z (Z.of_nat (nrows aug)) * scale))
    ∧ ncols warped = ncols aug.
Proof.
  intros Hrows. unfold time_scale.
  set (t := Z.of_nat (nrows aug)).
  set (new_t := if (py_int (inject_Z t * scale) <? 2)%Z then 2%Z
                else py_int (inject_Z t * scale)).
  assert (Hnew : new_t = Z.max 2 (py_int (inject_Z t * scale))).
  { unfold new_t. destruct (Z.ltb_spec (py_int (inject_Z t * scale)) 2); lia. }
  rewrite interp_columns_ok.
  - eexists. split; [reflexivity|]. rewrite nrows_from_columns.
    rewrite length_np_linspace by lia. split; [lia|].
    unfold from_columns; simpl. now rewrite length_map, length_seq.
  - rewrite length_np_linspace by lia. unfold t. lia.
  - apply np_linspace_nonempty. unfold t. lia.
Qed.

Lemma pad_or_truncate_cases sample L :
  (0 <= L)%Z →
  let t := Z.of_nat (nrows sample) in
  Z.of_nat (nrows (pad_or_truncate sample L)) = L
  ∧ ncols (pad_or_truncate sample L) = ncols sample
  ∧ (t = L → pad_or_truncate sample L = sample)
  ∧ ((L < t)%Z → rows (pad_or_truncate sample L)
                  = firstn (Z.to_nat L) (rows sample))
  ∧ ((t < L)%Z → rows (pad_or_truncate sample L)
                  = rows sample
                    ++ repeat (repeat 0 (ncols sample)) (Z.to_nat (L - t))).
Proof.
  intros HL. cbv zeta. unfold pad_or_truncate, nrows.
  destruct (Z.eqb_spec (Z.of_nat (length (rows sample))) L) as [Heq|Hne].
  - repeat split; try lia; try reflexivity; exact Heq.
  - destruct (Z.ltb_spec L (Z.of_nat (length (rows sample)))) as [Hlt|Hge].
    + destruct (length_py_slice (rows sample) 0 L) as [Hs Hl]; [lia | lia |].
      rewrite Z.sub_0_r in Hs, Hl. simpl skipn in Hs. cbn [rows ncols].
      split; [rewrite Hl; lia|]. split; [reflexivity|].
      split; [lia|]. split; [intros _; exact Hs | lia].
    + cbn [rows ncols].
      split; [rewrite length_app, repeat_length; lia|]. split; [reflexivity|].
      split; [lia|]. split; [lia | reflexivity].
Qed.

(** C1 (as amended). The warped signal has [max(2, int(T * scale))] time
    steps, and the last step of [augment_sample] is [pad_or_truncate]: the
    result has [FIXED_LENGTH] rows and is the warped signal itself when it
    has that many rows, its first [FIXED_LENGTH] rows when it is longer,
    and the warped signal followed by rows of zeros when it is shorter. *)
Theorem augment_sample_pads_or_truncates (sample noise : ndarray)
    (gains : list Q) (scale : Q) :
  (1 <= nrows sample)%nat → nrows noise = nrows sample →
  let L := FIXED_LENGTH in
  let new_t := Z.max 2 (py_int (inject_Z (Z.of_nat (nrows sample)) * scale)) in
  ∃ warped out,
    time_scale (noise_and_gain sample noise gains) scale = Ok warped
    ∧ Z.of_nat (nrows warped) = new_t
    ∧ augment_sample sample noise gains scale = Ok out
    ∧ Z.of_nat (nrows out) = L
    ∧ (new_t = L → out = warped)
    ∧ ((L < new_t)%Z → rows out = firstn (Z.to_nat L) (rows warped))
    ∧ ((new_t < L)%Z →
       rows out = rows warped
                  ++ repeat (repeat 0 (ncols sample)) (Z.to_nat (L - new_t))).
Proof.
  intros Hrows Hnoise. cbv zeta.
  assert (Haug : nrows (noise_and_gain sample noise gains) = nrows sample).
  { unfold noise_and_gain, nrows in *. simpl.
    rewrite length_map, length_zip_with. lia. }
  destruct (nrows_time_scale (noise_and_gain sample noise gains) scale)
    as (warped & Hw & Hwrows & Hwcols); [lia|].
  rewrite Haug in Hwrows.
  destruct (pad_or_truncate_cases warped FIXED_LENGTH ltac:(unfold FIXED_LENGTH; lia))
    as (Hlen & _ & Hsame & Hcrop & Hpad).
  exists warped, (pad_or_truncate warped FIXED_LENGTH).
  split; [exact Hw|]. split; [exact Hwrows|].
  split; [unfold augment_sample; now rewrite Hw|].
  split; [exact Hlen|]. rewrite <- Hwrows.
  split; [exact Hsame|]. split; [exact Hcrop|].
  intros Hlt. rewrite (Hpad Hlt). now rewrite Hwcols.
Qed.

Lemma augment_sample_pads_or_truncates_witness :
  ∃ warped out,
    time_scale (noise_and_gain (constant_array 4 6 1) (constant_array 4 6 0)
                  (repeat 1 6)) (3 # 2) = Ok warped
    ∧ augment_sample (constant_array 4 6 1) (constant_array 4 6 0)
        (repeat 1 6) (3 # 2) = Ok out
    ∧ rows out = rows warped ++ repeat (repeat 0 6) 122.
Proof.
  destruct (augment_sample_pads_or_truncates
              (constant_array 4 6 1) (constant_array 4 6 0) (repeat 1 6) (3 # 2))
    as (warped & out & Hw & _ & Ho & _ & _ & _ & Hpad);
    [vm_compute; lia | reflexivity |].
  exists warped, out. split; [exact Hw|]. split; [exact Ho|].
  apply Hpad. vm_compute. reflexivity.
Defined.

(** C1 (counterexample). A sample of 128 rows of ones, without noise and
    with unit gains, warped by the scale 0.92: the warped signal has 117
    rows; [augment_sample] appends 11 rows of zeros, where a second
    resample gives rows of ones. *)
Lemma augment_sample_zero_pads :
  let sample := constant_array 128 6 1 in
  let noise := constant_array 128 6 0 in
  let gains := repeat 1 6 in
  let out := augment_sample sample noise gains (23 # 25) in
  let out' := spec_augment_sample sample noise gains (23 # 25) in
  is_ok out = true ∧ is_ok out' = true
  ∧ length (result_rows rows (time_scale (noise_and_gain sample noise gains)
                                (23 # 25))) = 117%nat
  ∧ nth 127 (result_rows rows out) [] = repeat 0 6
  ∧ forallb (Qeq_bool 1) (nth 127 (result_rows rows out') []) = true.
Proof. cbv zeta. repeat split; vm_compute; reflexivity. Qed.

(** ** Peak Detector *)

Lemma py_getitem_nth (l : list Q) i :
  (0 <= i < Z.of_nat (length l))%Z →
  py_getitem l i = Ok (nth (Z.to_nat i) l 0).
Proof.
  intros Hi. unfold py_getitem. cbv zeta.
  rewrite (proj2 (Z.ltb_ge i 0)) by lia.
  rewrite (proj2 (Z.ltb_ge i 0)) by lia.
  rewrite (proj2 (Z.leb_gt (Z.of_nat (length l)) i)) by lia. cbn [orb].
  destruct (nth_error l (Z.to_nat i)) as [x|] eqn:E.
  - f_equal. symmetry. now apply nth_error_nth.
  - apply nth_error_None in E. lia.
Qed.

Lemma np_convolve_same_length a v :
  a ≠ [] → v ≠ [] →
  ∃ out, np_convolve_same a v = Ok out
         ∧ length out = Nat.max (length a) (length v).
Proof.
  intros Ha Hv. unfold np_convolve_same.
  destruct (Nat.ltb_spec (length a) (length v)) as [Hlt|Hge].
  - destruct v as [|y v]; [congruence|].
    destruct a as [|x a]; [congruence|]. cbn [length Nat.eqb].
    eexists. split; [reflexivity|].
    rewrite length_map, length_seq. simpl in *. lia.
  - destruct a as [|x a]; [congruence|].
    destruct v as [|y v]; [congruence|]. cbn [length Nat.eqb].
    eexists. split; [reflexivity|].
    rewrite length_map, length_seq. simpl in *. lia.
Qed.

Lemma is_candidate_test smooth mean f var i :
  (1 <= i)%Z → (i + 1 < Z.of_nat (length smooth))%Z →
  is_candidate smooth mean f var i = Ok (candidate_test smooth mean f var i).
Proof.
  intros H1 H2. unfold is_candidate, candidate_test.
  rewrite !py_getitem_nth by lia. cbn [mbind result_bind].
  destruct (above_thresh _ _ _ _); [|reflexivity]. cbn [andb].
  destruct (Qle_bool (nth (Z.to_nat (i - 1)) smooth 0) _); reflexivity.
Qed.

Lemma find_candidates_filter smooth mean f var l :
  List.Forall (fun i => (1 <= i)%Z ∧ (i + 1 < Z.of_nat (length smooth))%Z) l →
  find_candidates smooth mean f var l
    = Ok (List.filter (candidate_test smooth mean f var) l).
Proof.
  induction 1 as [|i l [H1 H2] Hl IH]; [reflexivity|]. simpl.
  rewrite is_candidate_test by assumption. cbn [mbind result_bind].
  rewrite IH. cbn [mbind result_bind]. reflexivity.
Qed.

Lemma py_range_In a b i : In i (py_range a b) ↔ (a <= i < b)%Z.
Proof.
  unfold py_range. rewrite in_map_iff. split.
  - intros (k & <- & Hk). apply in_seq in Hk. lia.
  - intros Hi. exists (Z.to_nat (i - a)). split; [lia|]. apply in_seq. lia.
Qed.

Lemma py_range_sorted a b : StronglySorted Z.lt (py_range a b).
Proof.
  unfold py_range. generalize (Z.to_nat (b - a)) as n. intros n.
  generalize 0%nat as k. induction n as [|n IH]; intros k; simpl; constructor.
  - apply IH.
  - apply List.Forall_forall. intros j Hj.
    apply in_map_iff in Hj as (m & <- & Hm). apply in_seq in Hm. lia.
Qed.

Lemma filter_sorted {A} (R : A → A → Prop) (p : A → bool) l :
  StronglySorted R l → StronglySorted R (List.filter p l).
Proof.
  induction 1 as [|x l Hs IH Hx]; simpl; [constructor|].
  destruct (p x); [|exact IH]. constructor; [exact IH|].
  apply List.Forall_forall. intros y Hy. apply filter_In in Hy as [Hy _].
  rewrite List.Forall_forall in Hx. now apply Hx.
Qed.

Lemma sorted_snoc ps (a b : Z) :
  StronglySorted Z.lt (ps ++ [a]) → (a < b)%Z →
  StronglySorted Z.lt (ps ++ [b]) ∧ StronglySorted Z.lt ((ps ++ [a]) ++ [b]).
Proof.
  induction ps as [|p ps IH]; simpl; intros Hs Hab.
  - split; repeat constructor. exact Hab.
  - apply StronglySorted_inv in Hs as [Hs Hp].
    destruct (IH Hs Hab) as [IH1 IH2].
    rewrite List.Forall_forall in Hp.
    assert (Hpa : (p < a)%Z) by (apply Hp, in_or_app; right; now left).
    split; constructor; try assumption; apply List.Forall_forall; intros y Hy.
    + apply in_app_or in Hy as [Hy|[<-|[]]]; [|lia].
      apply Hp, in_or_app. now left.
    + apply in_app_or in Hy as [Hy|[<-|[]]]; [|lia]. now apply Hp.
Qed.

Lemma spacing_step_inv (ok : Z → Prop) smooth min_dist st idx rest :
  (∀ i, ok i → (0 <= i < Z.of_nat (length smooth))%Z) →
  spacing_inv ok min_dist st (idx :: rest) →
  ∃ st', spacing_step smooth min_dist st idx = Ok st'
         ∧ spacing_inv ok min_dist st' rest.
Proof.
  intros Hok (Hsorted & Hall & Hst). destruct st as [peaks last_idx].
  apply StronglySorted_inv in Hsorted as [Hsorted Hidx].
  apply List.Forall_cons_iff in Hall as [Hokidx Hall].
  simpl in Hst. unfold spacing_step.
  assert (Hnew : ∀ ps, StronglySorted Z.lt (ps ++ [idx]) →
                        List.Forall ok (ps ++ [idx]) →
                        spacing_inv ok min_dist (ps ++ [idx], idx) rest).
  { intros ps H1 H2. split; [exact Hsorted|]. split; [exact Hall|].
    right. exists ps. simpl. repeat split; assumption. }
  destruct Hst as [[-> ->]|(ps & -> & Hps & Hpok & Hlast)].
  - pose proof (Hok idx Hokidx).
    destruct (Z.leb_spec min_dist (idx - - min_dist)) as [_|]; [|lia].
    eexists. split; [reflexivity|]. apply (Hnew []).
    + repeat constructor.
    + now repeat constructor.
  - apply List.Forall_cons_iff in Hlast as [Hlt Hlast].
    assert (Hoklast : ok last_idx).
    { rewrite List.Forall_forall in Hpok. apply Hpok, in_or_app. right. now left. }
    assert (Hokps : List.Forall ok ps) by (now apply List.Forall_app in Hpok).
    destruct (sorted_snoc ps last_idx idx Hps Hlt) as [Hrep Happ].
    destruct (Z.leb_spec min_dist (idx - last_idx)) as [_|_].
    + eexists. split; [reflexivity|]. apply (Hnew (ps ++ [last_idx])).
      * exact Happ.
      * apply List.Forall_app. split; [exact Hpok | now repeat constructor].
    + rewrite !py_getitem_nth by (now apply Hok). cbn [mbind result_bind].
      destruct (Qltb _ _).
      * unfold py_set_last. destruct (ps ++ [last_idx]) eqn:E;
          [now destruct ps|]. rewrite <- E, removelast_last.
        cbn [mbind result_bind]. eexists. split; [reflexivity|].
        apply (Hnew ps); [exact Hrep|].
        apply List.Forall_app. split; [exact Hokps | now repeat constructor].
      * eexists. split; [reflexivity|].
        split; [exact Hsorted|]. split; [exact Hall|]. right.
        exists ps. simpl. repeat split; assumption.
Qed.

Lemma enforce_spacing_inv (ok : Z → Prop) smooth min_dist st candidates :
  (∀ i, ok i → (0 <= i < Z.of_nat (length smooth))%Z) →
  spacing_inv ok min_dist st candidates →
  ∃ st', enforce_spacing smooth min_dist st candidates = Ok st'
         ∧ StronglySorted Z.lt (fst st') ∧ List.Forall ok (fst st').
Proof.
  intros Hok. revert st. induction candidates as [|idx rest IH]; intros st Hinv.
  - exists st. split; [reflexivity|].
    destruct Hinv as (_ & _ & [[-> _]|(ps & _ & H1 & H2 & _)]).
    + split; constructor.
    + now split.
  - destruct (spacing_step_inv ok smooth min_dist st idx rest Hok Hinv)
      as (st' & Hstep & Hinv').
    simpl. rewrite Hstep. cbn [mbind result_bind]. now apply IH.
Qed.

(** C10. Whatever the signal and the parameters, the detector returns a
    list of peaks that is strictly increasing and holds interior positions
    only. *)
Theorem smooth_and_detect_peaks_increasing_interior (signal : list Q)
    (fs thresh_factor min_distance_sec : Q) :
  ∃ peaks,
    smooth_and_detect_peaks signal fs thresh_factor min_distance_sec = Ok peaks
    ∧ StronglySorted Z.lt peaks
    ∧ List.Forall (fun i => (1 <= i <= Z.of_nat (length signal) - 2)%Z) peaks.
Proof.
  unfold smooth_and_detect_peaks.
  set (n := Z.of_nat (length signal)).
  destruct (Z.ltb_spec n 3) as [Hsmall|Hn].
  { exists []. repeat split; constructor. }
  set (window := Z.max 3 (py_int ((5 # 100) * fs))).
  destruct (Z.ltb_spec 1 window) as [_|]; [|lia].
  destruct (np_convolve_same_length signal (box_kernel window))
    as (smooth & -> & Hlen).
  { intros ->. simpl in n. lia. }
  { unfold box_kernel. intros H. apply (f_equal (@length Q)) in H.
    rewrite repeat_length in H. simpl in H. lia. }
  cbn [mbind result_bind].
  set (mean := np_mean smooth).
  set (var := if Qeq_bool (np_var smooth) 0 then 1 else np_var smooth).
  set (ok := fun i => (1 <= i <= n - 2)%Z).
  assert (Hrange : List.Forall ok (py_range 1 (n - 1))).
  { apply List.Forall_forall. intros i Hi. apply py_range_In in Hi. unfold ok. lia. }
  assert (Hok : ∀ i, ok i → (0 <= i < Z.of_nat (length smooth))%Z).
  { intros i Hi. unfold ok in Hi. lia. }
  rewrite find_candidates_filter.
  2:{ eapply List.Forall_impl; [|exact Hrange]. intros i Hi. unfold ok in Hi. lia. }
  cbn [mbind result_bind].
  set (candidates := List.filter _ _).
  assert (Hcs : StronglySorted Z.lt candidates)
    by (apply filter_sorted, py_range_sorted).
  assert (Hcok : List.Forall ok candidates).
  { apply List.Forall_forall. intros i Hi. apply filter_In in Hi as [Hi _].
    rewrite List.Forall_forall in Hrange. now apply Hrange. }
  destruct candidates as [|c cs] eqn:Ec.
  { exists []. repeat split; constructor. }
  rewrite <- Ec in *.
  destruct (enforce_spacing_inv ok smooth (py_int (min_distance_sec * fs))
              ([], (- py_int (min_distance_sec * fs))%Z) candidates Hok)
    as ([peaks last_idx] & Hres & Hsorted & Hin).
  { split; [exact Hcs|]. split; [exact Hcok|]. left. now split. }
  rewrite Hres. cbn [mbind result_bind]. exists peaks. now repeat split.
Qed.

(** *** Sums *)

Lemma Qsum_app l1 l2 : Qsum (l1 ++ l2) == Qsum l1 + Qsum l2.
Proof.
  induction l1 as [|x l1 IH]; simpl; [ring|]. rewrite IH. ring.
Qed.

Lemma Qsum_map_const {A} (f : A → Q) (c : Q) l :
  (∀ x, In x l → f x == c) →
  Qsum (map f l) == inject_Z (Z.of_nat (length l)) * c.
Proof.
  induction l as [|x l IH]; intros Hf.
  - simpl. ring.
  - cbn [map Qsum fold_right length].
    fold (Qsum (map f l)). rewrite IH by (intros y Hy; apply Hf; now right).
    rewrite (Hf x (or_introl eq_refl)).
    rewrite Nat2Z.inj_succ, <- Z.add_1_r, inject_Z_plus.
    change (inject_Z 1) with 1. ring.
Qed.

Lemma Qsum_map_ext {A} (f g : A → Q) l :
  (∀ x, In x l → f x == g x) → Qsum (map f l) == Qsum (map g l).
Proof.
  induction l as [|x l IH]; intros Hf; [reflexivity|].
  cbn [map Qsum fold_right]. fold (Qsum (map f l)) (Qsum (map g l)).
  rewrite IH by (intros y Hy; apply Hf; now right).
  now rewrite (Hf x (or_introl eq_refl)).
Qed.

(** A sum with at most one non-zero term. *)
Lemma Qsum_single (f : nat → Q) (k a len : nat) :
  (∀ j, j ≠ k → f j == 0) →
  Qsum (map f (seq a len))
    == if ((a <=? k) && (k <? a + len))%nat then f k else 0.
Proof.
  intros Hf. revert a. induction len as [|len IH]; intros a.
  - simpl. destruct (Nat.leb_spec a k), (Nat.ltb_spec k (a + 0)); simpl;
      try reflexivity; lia.
  - cbn [seq map Qsum fold_right]. fold (Qsum (map f (seq (S a) len))).
    rewrite IH.
    destruct (Nat.eq_dec a k) as [->|Hne].
    + destruct (Nat.leb_spec (S k) k); [lia|].
      destruct (Nat.leb_spec k k); [|lia].
      destruct (Nat.ltb_spec k (k + S len)); [|lia]. simpl. ring.
    + rewrite (Hf a Hne).
      destruct (Nat.leb_spec (S a) k), (Nat.leb_spec a k),
        (Nat.ltb_spec k (S a + len)), (Nat.ltb_spec k (a + S len));
        simpl; try ring; lia.
Qed.

Lemma nth_map_seq (f : nat → Q) n i :
  (i < n)%nat → nth i (map f (seq 0 n)) 0 = f i.
Proof.
  intros Hi. rewrite (nth_indep _ 0 (f 0%nat)) by (now rewrite length_map, length_seq).
  rewrite map_nth, seq_nth by exact Hi. reflexivity.
Qed.

(** *** The threshold test *)

Lemma above_thresh_unit_true x mean var :
  0 < x - mean → var < (x - mean) * (x - mean) →
  above_thresh x mean 1 var = true.
Proof.
  intros Hd Hv. unfold above_thresh.
  change (Qle_bool 0 1) with true. cbv iota.
  rewrite Qltb_true by exact Hd. rewrite Qltb_true by lra. reflexivity.
Qed.

Lemma above_thresh_below_mean x mean f var :
  0 <= f → x - mean <= 0 → above_thresh x mean f var = false.
Proof.
  intros Hf Hd. unfold above_thresh.
  rewrite Qle_bool_true by exact Hf. now rewrite Qltb_false.
Qed.

(** *** The threshold test and the square root *)

Lemma Rmult_self_lt (a b : R) :
  (0 <= a)%R → (0 <= b)%R → (a < b)%R → (a * a < b * b)%R.
Proof. intros Ha Hb H. now apply (Rsqr_incrst_1 a b). Qed.

Lemma Rmult_self_lt_inv (a b : R) :
  (0 <= a)%R → (0 <= b)%R → (a * a < b * b)%R → (a < b)%R.
Proof. intros Ha Hb H. now apply (Rsqr_incrst_0 a b). Qed.

(** [above_thresh] decides [mean + f * sqrt(var) < x] over the reals. *)
Lemma above_thresh_sqrt (x mean f var : Q) :
  0 <= var →
  above_thresh x mean f var = true
  ↔ (Q2R mean + Q2R f * sqrt (Q2R var) < Q2R x)%R.
Proof.
  intros Hvar. apply Qle_Rle in Hvar.
  assert (H0 : Q2R 0 = 0%R) by (unfold Q2R; simpl; lra).
  rewrite H0 in Hvar.
  set (s := sqrt (Q2R var)).
  assert (Hs : (0 <= s)%R) by apply sqrt_pos.
  assert (Hss : (s * s = Q2R var)%R) by (now apply sqrt_sqrt).
  set (D := (Q2R x - Q2R mean)%R).
  assert (HD : Q2R (x - mean) = D) by (unfold D; now rewrite Q2R_minus).
  assert (Hdd : Q2R ((x - mean) * (x - mean)) = (D * D)%R)
    by (now rewrite Q2R_mult, HD).
  assert (Hfv : Q2R (f * f * var) = ((Q2R f * s) * (Q2R f * s))%R).
  { rewrite !Q2R_mult, <- Hss. ring. }
  assert (Hpos : Qltb 0 (x - mean) = true ↔ (0 < D)%R).
  { rewrite Qltb_lt. split; intros H.
    - apply Qlt_Rlt in H. now rewrite H0, HD in H.
    - apply Rlt_Qlt. now rewrite H0, HD. }
  assert (Hgt : Qltb (f * f * var) ((x - mean) * (x - mean)) = true
                ↔ ((Q2R f * s) * (Q2R f * s) < D * D)%R).
  { rewrite Qltb_lt. split; intros H.
    - apply Qlt_Rlt in H. now rewrite Hfv, Hdd in H.
    - apply Rlt_Qlt. now rewrite Hfv, Hdd. }
  assert (Hlt : Qltb ((x - mean) * (x - mean)) (f * f * var) = true
                ↔ (D * D < (Q2R f * s) * (Q2R f * s))%R).
  { rewrite Qltb_lt. split; intros H.
    - apply Qlt_Rlt in H. now rewrite Hfv, Hdd in H.
    - apply Rlt_Qlt. now rewrite Hfv, Hdd. }
  unfold above_thresh. cbv zeta.
  destruct (Qle_bool 0 f) eqn:Ef.
  - apply Qle_bool_iff, Qle_Rle in Ef. rewrite H0 in Ef.
    assert (Hfs : (0 <= Q2R f * s)%R) by (apply Rmult_le_pos; assumption).
    rewrite andb_true_iff, Hpos, Hgt. split.
    + intros [HD0 Hsq].
      apply Rmult_self_lt_inv in Hsq; [unfold D in Hsq; lra | exact Hfs | lra].
    + intros H. assert (HD0 : (0 < D)%R) by (unfold D; lra).
      split; [exact HD0|].
      apply Rmult_self_lt; [exact Hfs | lra | unfold D; lra].
  - assert (Hf : (Q2R f < 0)%R).
    { destruct (Qlt_le_dec f 0) as [Hneg|Hle].
      - apply Qlt_Rlt in Hneg. now rewrite H0 in Hneg.
      - rewrite Qle_bool_true in Ef by exact Hle. discriminate. }
    assert (Hfs : (0 <= - (Q2R f * s))%R).
    { replace (- (Q2R f * s))%R with ((- Q2R f) * s)%R by ring.
      apply Rmult_le_pos; lra. }
    assert (Hopp : ∀ a : R, (- a * - a = a * a)%R) by (intros a; ring).
    rewrite orb_true_iff, Hpos, Hlt. split.
    + intros [HD0|Hsq]; [unfold D in HD0; lra|].
      destruct (Rlt_le_dec 0 D) as [HD0|HD0]; [unfold D in HD0; lra|].
      rewrite <- (Hopp D), <- (Hopp (Q2R f * s)%R) in Hsq.
      apply Rmult_self_lt_inv in Hsq; [unfold D in Hsq; lra | lra | exact Hfs].
    + intros H. destruct (Rlt_le_dec 0 D) as [HD0|HD0]; [now left|]. right.
      rewrite <- (Hopp D), <- (Hopp (Q2R f * s)%R).
      apply Rmult_self_lt; [lra | exact Hfs | unfold D; lra].
Qed.

(** *** The spacing loop on a plateau *)

Lemma enforce_spacing_collapse smooth min_dist ps c0 cs :
  (0 <= c0 < Z.of_nat (length smooth))%Z →
  List.Forall (fun c => (0 <= c < Z.of_nat (length smooth))%Z
                        ∧ (c - c0 < min_dist)%Z
                        ∧ nth (Z.to_nat c) smooth 0
                            <= nth (Z.to_nat c0) smooth 0) cs →
  enforce_spacing smooth min_dist (ps ++ [c0], c0) cs = Ok (ps ++ [c0], c0).
Proof.
  intros Hc0. induction 1 as [|c cs (Hc & Hd & Hv) _ IH]; [reflexivity|].
  simpl. destruct (Z.leb_spec min_dist (c - c0)); [lia|].
  rewrite !py_getitem_nth by assumption. cbn [mbind result_bind].
  rewrite Qltb_false by exact Hv. cbn [mbind result_bind]. exact IH.
Qed.

Lemma filter_none {A} (p : A → bool) l :
  (∀ x, In x l → p x = false) → List.filter p l = [].
Proof.
  induction l as [|x l IH]; intros Hp; [reflexivity|]. simpl.
  rewrite (Hp x (or_introl eq_refl)). apply IH. intros y Hy. apply Hp. now right.
Qed.

Lemma map_seq_shift (a : Z) s len :
  map (fun i => (a + Z.of_nat i)%Z) (seq s len)
    = map (fun i => (a + Z.of_nat s + Z.of_nat i)%Z) (seq 0 len).
Proof.
  revert a s. induction len as [|len IH]; intros a s; [reflexivity|].
  cbn [seq map]. f_equal; [lia|].
  rewrite (IH a (S s)), (IH (a + Z.of_nat s)%Z 1%nat).
  apply map_ext. intros i. lia.
Qed.

Lemma py_range_split a m b :
  (a <= m < b)%Z → py_range a b = py_range a m ++ m :: py_range (m + 1) b.
Proof.
  intros Hm. unfold py_range.
  replace (Z.to_nat (b - a)) with (Z.to_nat (m - a) + S (Z.to_nat (b - (m + 1))))%nat
    by lia.
  rewrite seq_app, map_app. f_equal. cbn [seq map]. f_equal; [lia|].
  rewrite map_seq_shift. apply map_ext. intros i. lia.
Qed.

(** *** A single spike *)

(** The steps of [smooth_and_detect_peaks] on a signal of three samples or
    more. *)
Lemma smooth_and_detect_peaks_steps (signal : list Q)
    (fs thresh_factor min_distance_sec : Q) :
  (3 <= length signal)%nat →
  ∃ smooth,
    moving_average signal fs = Ok smooth
    ∧ (length signal <= length smooth)%nat
    ∧ smooth_and_detect_peaks signal fs thresh_factor min_distance_sec =
      match List.filter
              (candidate_test smooth (np_mean smooth) thresh_factor
                 (guarded_var smooth))
              (py_range 1 (Z.of_nat (length signal) - 1)) with
      | [] => Ok []
      | c :: cs =>
          let min_dist := py_int (min_distance_sec * fs) in
          '(peaks, _) ← enforce_spacing smooth min_dist ([], (- min_dist)%Z)
                          (c :: cs);
          Ok peaks
      end.
Proof.
  intros Hn. unfold smooth_and_detect_peaks, moving_average.
  destruct (Z.ltb_spec (Z.of_nat (length signal)) 3) as [|_]; [lia|].
  set (window := Z.max 3 (py_int ((5 # 100) * fs))).
  destruct (Z.ltb_spec 1 window) as [_|]; [|lia].
  destruct (np_convolve_same_length signal (box_kernel window))
    as (smooth & -> & Hlen).
  { intros ->. simpl in Hn. lia. }
  { unfold box_kernel. intros H. apply (f_equal (@length Q)) in H.
    rewrite repeat_length in H. simpl in H. lia. }
  exists smooth. split; [reflexivity|]. split; [lia|].
  cbn [mbind result_bind]. fold (guarded_var smooth).
  rewrite find_candidates_filter.
  - cbn [mbind result_bind]. now destruct (List.filter _ _).
  - apply List.Forall_forall. intros i Hi. apply py_range_In in Hi. lia.
Qed.

Lemma above_thresh_unit_false x mean var :
  (x - mean) * (x - mean) <= var → above_thresh x mean 1 var = false.
Proof.
  intros Hv. unfold above_thresh. cbv zeta.
  change (Qle_bool 0 1) with true. cbv iota.
  rewrite (Qltb_false (1 * 1 * var)) by lra. apply andb_false_r.
Qed.

(** The plateau value [h / W] of a window of [W] samples against the
    threshold of a signal of [N] samples: [mean = h / N], the variance is
    [h^2 (N - W) / (W N^2)], and the plateau is above [mean + std] exactly
    when [N > 2 W]. *)
Lemma plateau_threshold (N W h : Q) :
  0 < W → W < N → 0 < h →
  0 < h * (1 / W) - h / N
  ∧ 0 < h * h * (N - W) / (W * N * N)
  ∧ (2 * W < N →
     h * h * (N - W) / (W * N * N)
       < (h * (1 / W) - h / N) * (h * (1 / W) - h / N))
  ∧ (N < 2 * W →
     (h * (1 / W) - h / N) * (h * (1 / W) - h / N)
       < h * h * (N - W) / (W * N * N)).
Proof.
  intros HW HN Hh.
  assert (Hd : h * (1 / W) - h / N == h * (N - W) / (W * N)) by (field; lra).
  assert (Hgap : (h * (1 / W) - h / N) * (h * (1 / W) - h / N)
                 - h * h * (N - W) / (W * N * N)
                 == h * h * (N - W) / (W * W * N * N) * (N - 2 * W))
    by (field; lra).
  assert (Hhh : 0 < h * h) by (apply Qmult_lt_0_compat; lra).
  assert (HWN : 0 < W * N) by (apply Qmult_lt_0_compat; lra).
  assert (HWNN : 0 < W * N * N) by (apply Qmult_lt_0_compat; lra).
  assert (HWWNN : 0 < W * W * N * N).
  { assert (E : W * W * N * N == (W * N) * (W * N)) by ring.
    rewrite E. apply Qmult_lt_0_compat; lra. }
  assert (H1 : 0 < h * (N - W) / (W * N)).
  { apply Qlt_shift_div_l; [lra|]. rewrite Qmult_0_l.
    apply Qmult_lt_0_compat; lra. }
  assert (H2 : 0 < h * h * (N - W) / (W * N * N)).
  { apply Qlt_shift_div_l; [lra|]. rewrite Qmult_0_l.
    apply Qmult_lt_0_compat; [exact Hhh | lra]. }
  assert (H3 : 0 < h * h * (N - W) / (W * W * N * N)).
  { apply Qlt_shift_div_l; [lra|]. rewrite Qmult_0_l.
    apply Qmult_lt_0_compat; [exact Hhh | lra]. }
  split; [lra|]. split; [exact H2|]. split; intros Hcmp.
  - assert (0 < h * h * (N - W) / (W * W * N * N) * (N - 2 * W))
      by (apply Qmult_lt_0_compat; lra).
    lra.
  - assert (0 < h * h * (N - W) / (W * W * N * N) * (2 * W - N))
      by (apply Qmult_lt_0_compat; lra).
    lra.
Qed.

(** The spacing loop on candidates that all carry one smoothed value: a
    kept peak is never replaced, so the peaks kept so far stay. *)
Lemma enforce_spacing_flat smooth min_dist (v : Q) : ∀ cs peaks last_idx,
  (0 <= last_idx < Z.of_nat (length smooth))%Z →
  nth (Z.to_nat last_idx) smooth 0 == v →
  List.Forall (fun c => (0 <= c < Z.of_nat (length smooth))%Z
                        ∧ nth (Z.to_nat c) smooth 0 == v) cs →
  ∃ more last', enforce_spacing smooth min_dist (peaks, last_idx) cs
                = Ok (peaks ++ more, last').
Proof.
  induction cs as [|c cs IH]; intros peaks last_idx Hl Hlv Hcs.
  - exists [], last_idx. simpl. now rewrite app_nil_r.
  - apply List.Forall_cons_iff in Hcs as [[Hc Hcv] Hcs]. simpl.
    destruct (Z.leb_spec min_dist (c - last_idx)).
    + cbn [mbind result_bind].
      destruct (IH (peaks ++ [c]) c Hc Hcv Hcs) as (more & last' & ->).
      exists (c :: more), last'. now rewrite <- app_assoc.
    + rewrite !py_getitem_nth by assumption. cbn [mbind result_bind].
      rewrite Qltb_false by lra. cbn [mbind result_bind].
      apply IH; assumption.
Qed.

Section SpikeSmoothing.

Variables (n k w off : nat) (h fs min_distance_sec : Q).
Hypothesis Hh : 0 < h.
Hypothesis Hw : (3 <= w)%nat.
Hypothesis Hoff : off = ((w - 1) / 2)%nat.
Hypothesis Hoff1 : (1 <= off)%nat.
Hypothesis Hoff2 : (2 * off <= w - 1)%nat.
Hypothesis Hk : (off + 1 <= k)%nat.
Hypothesis Hkn : (k + w <= n + off)%nat.
Hypothesis Hwin : Z.max 3 (py_int ((5 # 100) * fs)) = Z.of_nat w.

Let N : Q := inject_Z (Z.of_nat n).
Let W : Q := inject_Z (Z.of_nat w).
Let start : nat := (k - off)%nat.

Let smoothed : list Q :=
  map (fun i => conv_full_at (spike_signal n k h) (box_kernel (Z.of_nat w))
                  (i + off))
      (seq 0 n).

Lemma spike_length : length (spike_signal n k h) = n.
Proof using All.
  unfold spike_signal. rewrite !length_app, !repeat_length. simpl. lia.
Qed.

Lemma spike_nth j :
  nth j (spike_signal n k h) 0 = if (j =? k)%nat then h else 0.
Proof using All.
  unfold spike_signal. destruct (Nat.eqb_spec j k) as [->|Hne].
  - rewrite app_nth2 by (rewrite repeat_length; lia).
    now rewrite repeat_length, Nat.sub_diag.
  - destruct (Nat.lt_ge_cases j k) as [Hlt|Hge].
    + rewrite app_nth1 by (rewrite repeat_length; lia). apply nth_repeat.
    + rewrite app_nth2 by (rewrite repeat_length; lia). rewrite repeat_length.
      destruct (j - k)%nat as [|d] eqn:E; [lia|]. simpl. apply nth_repeat.
Qed.

Lemma box_kernel_length : length (box_kernel (Z.of_nat w)) = w.
Proof using All. unfold box_kernel. now rewrite repeat_length, Nat2Z.id. Qed.

Lemma box_kernel_nth j :
  nth j (box_kernel (Z.of_nat w)) 0 = if (j <? w)%nat then 1 / W else 0.
Proof using All.
  unfold box_kernel. rewrite Nat2Z.id. fold W.
  destruct (Nat.ltb_spec j w) as [Hlt|Hge].
  - rewrite (nth_indep _ 0 (1 / W)) by (now rewrite repeat_length).
    apply nth_repeat.
  - apply nth_overflow. now rewrite repeat_length.
Qed.

Lemma conv_spike m :
  conv_full_at (spike_signal n k h) (box_kernel (Z.of_nat w)) m
    == if ((k <=? m) && (m - k <? w))%nat then h * (1 / W) else 0.
Proof using All.
  unfold conv_full_at. rewrite (Qsum_single _ k).
  - rewrite spike_nth, Nat.eqb_refl, box_kernel_nth.
    destruct (Nat.leb_spec 0 k), (Nat.ltb_spec k (0 + S m)), (Nat.leb_spec k m),
      (Nat.ltb_spec (m - k) w); simpl; try reflexivity; try lia; ring.
  - intros j Hj. rewrite spike_nth.
    destruct (Nat.eqb_spec j k); [contradiction | ring].
Qed.

Lemma smoothed_length : length smoothed = n.
Proof using All. unfold smoothed. now rewrite length_map, length_seq. Qed.

Lemma smoothed_at (i : nat) :
  (i < n)%nat →
  conv_full_at (spike_signal n k h) (box_kernel (Z.of_nat w)) (i + off)
    == if plateau start w (Z.of_nat i) then h * (1 / W) else 0.
Proof using All.
  intros Hi. rewrite conv_spike. unfold plateau, start.
  destruct (Nat.leb_spec k (i + off)), (Nat.ltb_spec (i + off - k) w),
    (Z.leb_spec (Z.of_nat (k - off)) (Z.of_nat i)),
    (Z.ltb_spec (Z.of_nat i) (Z.of_nat (k - off) + Z.of_nat w));
    simpl; try reflexivity; lia.
Qed.

Lemma smoothed_nth i :
  (0 <= i < Z.of_nat n)%Z →
  nth (Z.to_nat i) smoothed 0 == if plateau start w i then h * (1 / W) else 0.
Proof using All.
  intros Hi. unfold smoothed. rewrite nth_map_seq by lia.
  rewrite smoothed_at by lia. now rewrite Z2Nat.id by lia.
Qed.

Lemma convolve_spike :
  np_convolve_same (spike_signal n k h) (box_kernel (Z.of_nat w)) = Ok smoothed.
Proof using All.
  unfold np_convolve_same. rewrite spike_length, box_kernel_length.
  destruct (Nat.ltb_spec n w) as [|_]; [lia|].
  rewrite spike_length, box_kernel_length.
  destruct (Nat.eqb_spec n 0) as [|_]; [lia|].
  destruct (Nat.eqb_spec w 0) as [|_]; [lia|].
  now rewrite <- Hoff.
Qed.

(** The sum of a function that takes one value on the plateau and another
    one off it. *)
Lemma Qsum_plateau (G : nat → Q) (c_in c_out : Q) :
  (∀ i, (i < n)%nat →
        G i == if plateau start w (Z.of_nat i) then c_in else c_out) →
  Qsum (map G (seq 0 n)) == (N - W) * c_out + W * c_in.
Proof using All.
  intros HG.
  assert (Hsplit : seq 0 n
                   = seq 0 start ++ seq start w ++ seq (start + w) (n - start - w)).
  { rewrite <- seq_app. change start with (0 + start)%nat at 2.
    rewrite <- seq_app. f_equal. unfold start. lia. }
  rewrite Hsplit, !map_app, !Qsum_app.
  rewrite (Qsum_map_const G c_out (seq 0 start)).
  2:{ intros i Hi. apply in_seq in Hi. rewrite HG by (unfold start in *; lia).
      unfold plateau.
      destruct (Z.leb_spec (Z.of_nat start) (Z.of_nat i)); [lia | reflexivity]. }
  rewrite (Qsum_map_const G c_in (seq start w)).
  2:{ intros i Hi. apply in_seq in Hi. rewrite HG by (unfold start in *; lia).
      unfold plateau.
      destruct (Z.leb_spec (Z.of_nat start) (Z.of_nat i)); [|lia].
      destruct (Z.ltb_spec (Z.of_nat i) (Z.of_nat start + Z.of_nat w));
        [reflexivity | lia]. }
  rewrite (Qsum_map_const G c_out (seq (start + w) (n - start - w))).
  2:{ intros i Hi. apply in_seq in Hi. rewrite HG by (unfold start in *; lia).
      unfold plateau.
      destruct (Z.ltb_spec (Z.of_nat i) (Z.of_nat start + Z.of_nat w)); [lia|].
      now rewrite andb_false_r. }
  rewrite !length_seq. unfold N, W.
  replace (Z.of_nat n)
    with (Z.of_nat start + (Z.of_nat w + Z.of_nat (n - start - w)))%Z
    by (unfold start; lia).
  rewrite !inject_Z_plus. ring.
Qed.

Lemma W_pos : 0 < W.
Proof using All.
  unfold W. change 0 with (inject_Z 0). rewrite <- Zlt_Qlt. lia.
Qed.

Lemma W_lt_N : W < N.
Proof using All. unfold W, N. rewrite <- Zlt_Qlt. lia. Qed.

Lemma smoothed_mean : np_mean smoothed == h / N.
Proof using All.
  pose proof W_pos. pose proof W_lt_N.
  unfold np_mean. rewrite smoothed_length. fold N. unfold smoothed.
  rewrite (Qsum_plateau _ (h * (1 / W)) 0).
  - field. split; lra.
  - intros i Hi. now apply smoothed_at.
Qed.

Lemma smoothed_var : np_var smoothed == h * h * (N - W) / (W * N * N).
Proof using All.
  pose proof W_pos. pose proof W_lt_N. pose proof smoothed_mean as Hmean.
  unfold np_var. set (m := np_mean smoothed) in *.
  unfold np_mean. rewrite length_map, smoothed_length. fold N.
  unfold smoothed. rewrite map_map.
  rewrite (Qsum_plateau _ ((h * (1 / W) - h / N) * (h * (1 / W) - h / N))
             ((0 - h / N) * (0 - h / N))).
  - field. split; lra.
  - intros i Hi. rewrite smoothed_at by exact Hi. rewrite Hmean.
    destruct (plateau start w (Z.of_nat i)); reflexivity.
Qed.

Lemma smoothed_var_guard : guarded_var smoothed = np_var smoothed.
Proof using All.
  destruct (plateau_threshold N W h W_pos W_lt_N Hh) as (_ & Hpos & _).
  unfold guarded_var. rewrite Qeq_bool_false; [reflexivity|].
  rewrite smoothed_var. lra.
Qed.

Lemma candidate_on_plateau i :
  2 * W < N → (1 <= i <= Z.of_nat n - 2)%Z →
  candidate_test smoothed (np_mean smoothed) 1 (np_var smoothed) i
    = plateau start w i.
Proof using All.
  intros Hlong Hi.
  destruct (plateau_threshold N W h W_pos W_lt_N Hh) as (Hd & _ & Hv & _).
  specialize (Hv Hlong). pose proof W_pos. pose proof W_lt_N.
  assert (Hm : 0 < h / N) by (apply Qlt_shift_div_l; lra).
  unfold candidate_test. cbv zeta.
  pose proof (smoothed_nth i ltac:(lia)) as Hs.
  pose proof (smoothed_nth (i - 1) ltac:(lia)) as Hp.
  pose proof (smoothed_nth (i + 1) ltac:(lia)) as Hq.
  destruct (plateau start w i) eqn:E.
  - rewrite above_thresh_unit_true.
    + rewrite !Qle_bool_true; [reflexivity | |].
      * rewrite Hq, Hs. destruct (plateau start w (i + 1)); lra.
      * rewrite Hp, Hs. destruct (plateau start w (i - 1)); lra.
    + rewrite Hs, smoothed_mean. exact Hd.
    + rewrite Hs, smoothed_mean, smoothed_var. exact Hv.
  - rewrite above_thresh_below_mean; [reflexivity | lra |].
    rewrite Hs, smoothed_mean. lra.
Qed.

Lemma candidate_short i :
  N < 2 * W → (1 <= i <= Z.of_nat n - 2)%Z →
  candidate_test smoothed (np_mean smoothed) 1 (np_var smoothed) i = false.
Proof using All.
  intros Hshort Hi.
  destruct (plateau_threshold N W h W_pos W_lt_N Hh) as (Hd & _ & _ & Hv).
  specialize (Hv Hshort). pose proof W_pos. pose proof W_lt_N.
  assert (Hm : 0 < h / N) by (apply Qlt_shift_div_l; lra).
  unfold candidate_test. cbv zeta.
  pose proof (smoothed_nth i ltac:(lia)) as Hs.
  destruct (plateau start w i) eqn:E.
  - rewrite above_thresh_unit_false; [reflexivity|].
    rewrite Hs, smoothed_mean, smoothed_var. lra.
  - rewrite above_thresh_below_mean; [reflexivity | lra |].
    rewrite Hs, smoothed_mean. lra.
Qed.

(** The detector on the spike, down to the candidates. *)
Lemma spike_candidates :
  smooth_and_detect_peaks (spike_signal n k h) fs 1 min_distance_sec =
    match List.filter
            (candidate_test smoothed (np_mean smoothed) 1 (np_var smoothed))
            (py_range 1 (Z.of_nat n - 1)) with
    | [] => Ok []
    | c :: cs =>
        let min_dist := py_int (min_distance_sec * fs) in
        '(peaks, _) ← enforce_spacing smoothed min_dist ([], (- min_dist)%Z)
                        (c :: cs);
        Ok peaks
    end.
Proof using All.
  destruct (smooth_and_detect_peaks_steps (spike_signal n k h) fs 1
              min_distance_sec) as (smooth & Hsmooth & _ & ->).
  { rewrite spike_length. lia. }
  unfold moving_average in Hsmooth. rewrite Hwin in Hsmooth.
  destruct (Z.ltb_spec 1 (Z.of_nat w)) as [_|]; [|lia].
  rewrite convolve_spike in Hsmooth. injection Hsmooth as <-.
  now rewrite spike_length, smoothed_var_guard.
Qed.

Lemma spike_short_signal :
  (n < 2 * w)%nat →
  smooth_and_detect_peaks (spike_signal n k h) fs 1 min_distance_sec = Ok [].
Proof using All.
  intros Hshort. rewrite spike_candidates.
  rewrite filter_none; [reflexivity|].
  intros i Hi. apply py_range_In in Hi. apply candidate_short; [|lia].
  unfold N, W. change 2 with (inject_Z 2). rewrite <- inject_Z_mult.
  rewrite <- Zlt_Qlt. lia.
Qed.

Lemma spike_long_signal :
  (2 * w < n)%nat →
  ∃ rest,
    smooth_and_detect_peaks (spike_signal n k h) fs 1 min_distance_sec
      = Ok ((Z.of_nat k - Z.of_nat off)%Z :: rest)
    ∧ ((Z.of_nat w <= py_int (min_distance_sec * fs))%Z → rest = []).
Proof using All.
  intros Hlong.
  assert (HlongQ : 2 * W < N).
  { unfold N, W. change 2 with (inject_Z 2). rewrite <- inject_Z_mult.
    rewrite <- Zlt_Qlt. lia. }
  set (c0 := (Z.of_nat k - Z.of_nat off)%Z).
  assert (Hc0 : c0 = Z.of_nat start) by (unfold c0, start; lia).
  rewrite spike_candidates.
  rewrite (py_range_split 1 c0 (Z.of_nat n - 1)) by (unfold c0; lia).
  rewrite List.filter_app. cbn [List.filter].
  rewrite filter_none.
  2:{ intros i Hi. apply py_range_In in Hi.
      rewrite candidate_on_plateau by (try exact HlongQ; unfold c0 in *; lia).
      unfold plateau.
      destruct (Z.leb_spec (Z.of_nat start) i); [lia | reflexivity]. }
  rewrite candidate_on_plateau by (try exact HlongQ; unfold c0; lia).
  assert (Hstart : plateau start w c0 = true).
  { unfold plateau. rewrite Hc0.
    destruct (Z.leb_spec (Z.of_nat start) (Z.of_nat start)); [|lia].
    destruct (Z.ltb_spec (Z.of_nat start) (Z.of_nat start + Z.of_nat w));
      [reflexivity | lia]. }
  rewrite Hstart. cbn [app]. cbv zeta.
  set (min_dist := py_int (min_distance_sec * fs)).
  set (cs := List.filter _ (py_range (c0 + 1) (Z.of_nat n - 1))).
  assert (Hcs : List.Forall
            (fun c => (c0 < c < Z.of_nat n)%Z ∧ plateau start w c = true) cs).
  { apply List.Forall_forall. intros c Hc. apply filter_In in Hc as [Hc Hct].
    apply py_range_In in Hc.
    rewrite candidate_on_plateau in Hct by (try exact HlongQ; unfold c0 in *; lia).
    split; [lia | exact Hct]. }
  cbn [enforce_spacing spacing_step].
  destruct (Z.leb_spec min_dist (c0 - - min_dist)) as [_|]; [|unfold c0 in *; lia].
  cbn [mbind result_bind].
  assert (Hv0 : nth (Z.to_nat c0) smoothed 0 == h * (1 / W)).
  { rewrite smoothed_nth by (unfold c0; lia). now rewrite Hstart. }
  destruct (enforce_spacing_flat smoothed min_dist (h * (1 / W)) cs [c0] c0)
    as (more & last' & Hflat).
  { rewrite smoothed_length. unfold c0. lia. }
  { exact Hv0. }
  { eapply List.Forall_impl; [|exact Hcs]. intros c [Hc Hct].
    rewrite smoothed_length. split; [unfold c0 in *; lia|].
    rewrite smoothed_nth by (unfold c0 in *; lia). now rewrite Hct. }
  cbn [app]. rewrite Hflat. cbn [mbind result_bind app].
  exists more. split; [reflexivity|].
  intros Hfar.
  rewrite (enforce_spacing_collapse smoothed min_dist [] c0) in Hflat.
  - cbn [app] in Hflat. injection Hflat as Hmore _.
    destruct more; [reflexivity | discriminate].
  - rewrite smoothed_length. unfold c0. lia.
  - eapply List.Forall_impl; [|exact Hcs]. intros c [Hc Hct].
    rewrite smoothed_length. split; [unfold c0 in *; lia|].
    split.
    + unfold plateau in Hct. apply andb_true_iff in Hct as [_ Hct].
      apply Z.ltb_lt in Hct. fold min_dist in Hfar. lia.
    + rewrite smoothed_nth by (unfold c0 in *; lia). rewrite Hct, Hv0. lra.
Qed.

End SpikeSmoothing.

(** C3 (as amended). With [thresh_factor = 1], take a signal of [n] zeros
    with one spike [h], of a magnitude between [10^-100] and [10^100], at
    position [k].  The moving average of [window = max(3, int(0.05 fs))]
    samples turns the spike into a plateau of height [h / window] that
    begins at [k - (window - 1) / 2]; let it lie inside the signal.  When
    [n < 2 window] the plateau is below [mean + std] and no peak is
    returned.  When [n > 2 window] the first returned peak is the first
    position of the plateau, which is before the spike index, and it is the
    only peak when [int(min_distance_sec * fs) >= window]. *)
Theorem spike_detected_at_plateau_start (n k : nat)
    (h fs min_distance_sec : Q) :
  let window := Z.max 3 (py_int ((5 # 100) * fs)) in
  let off := ((window - 1) / 2)%Z in
  let min_dist := py_int (min_distance_sec * fs) in
  let peaks := smooth_and_detect_peaks (spike_signal n k h) fs 1
                 min_distance_sec in
  1 / inject_Z (10 ^ 100) <= h <= inject_Z (10 ^ 100) →
  (off + 1 <= Z.of_nat k)%Z → (Z.of_nat k + (window - off) <= Z.of_nat n)%Z →
  ((Z.of_nat n < 2 * window)%Z → peaks = Ok [])
  ∧ ((2 * window < Z.of_nat n)%Z →
     (Z.of_nat k - off < Z.of_nat k)%Z
     ∧ ∃ rest, peaks = Ok ((Z.of_nat k - off)%Z :: rest)
               ∧ ((window <= min_dist)%Z → rest = [])).
Proof.
  cbv zeta. intros [Hlo _] Hk Hkn.
  set (window := Z.max 3 (py_int ((5 # 100) * fs))) in *.
  assert (Hh : 0 < h).
  { eapply Qlt_le_trans; [|exact Hlo]. reflexivity. }
  assert (Hw3 : (3 <= window)%Z) by (unfold window; lia).
  set (w := Z.to_nat window).
  assert (Hwin : window = Z.of_nat w) by (unfold w; lia).
  set (off := ((w - 1) / 2)%nat).
  assert (Hoff : ((window - 1) / 2)%Z = Z.of_nat off).
  { unfold off. rewrite Nat2Z.inj_div, Nat2Z.inj_sub by lia.
    now rewrite <- Hwin. }
  rewrite Hoff in *.
  assert (Hoffb : (1 <= off)%nat ∧ (2 * off <= w - 1)%nat).
  { unfold off. split.
    - apply (Nat.div_le_lower_bound (w - 1) 2 1); lia.
    - apply Nat.Div0.mul_div_le. }
  destruct Hoffb as [Hoff1 Hoff2].
  split.
  - intros Hshort.
    apply (spike_short_signal n k w off h fs min_distance_sec);
      try assumption; try reflexivity; lia.
  - intros Hlong. split; [lia|].
    rewrite Hwin.
    apply (spike_long_signal n k w off h fs min_distance_sec);
      try assumption; try reflexivity; lia.
Qed.

Lemma spike_detected_at_plateau_start_witness :
  smooth_and_detect_peaks (spike_signal 20 9 (7 # 2)) FS_TARGET 1 (3 # 10)
    = Ok [7%Z]
  ∧ smooth_and_detect_peaks (spike_signal 8 3 (7 # 2)) FS_TARGET 1 (3 # 10)
    = Ok [].
Proof.
  split.
  - destruct (spike_detected_at_plateau_start 20 9 (7 # 2) FS_TARGET (3 # 10))
      as [_ Hlong].
    + split; apply Qle_bool_iff; vm_compute; reflexivity.
    + vm_compute. discriminate.
    + vm_compute. discriminate.
    + destruct Hlong as (_ & rest & Hpeaks & Hrest);
        [vm_compute; reflexivity|].
      rewrite Hpeaks, Hrest; [reflexivity|]. vm_compute. discriminate.
  - apply (spike_detected_at_plateau_start 8 3 (7 # 2) FS_TARGET (3 # 10)).
    + split; apply Qle_bool_iff; vm_compute; reflexivity.
    + vm_compute. discriminate.
    + vm_compute. discriminate.
    + vm_compute. reflexivity.
Defined.

(** C3 (counterexample). Twelve samples at 100 Hz with a spike at index 6:
    one peak is returned, at index 4. *)
Lemma spike_peak_not_at_spike_index :
  smooth_and_detect_peaks (spike_signal 12 6 1) FS_TARGET 1 (3 # 10)
    = Ok [4%Z]
  ∧ smooth_and_detect_peaks (spike_signal 12 6 1) FS_TARGET 1 (3 # 10)
    ≠ Ok [6%Z].
Proof.
  assert (H : smooth_and_detect_peaks (spike_signal 12 6 1) FS_TARGET 1 (3 # 10)
              = Ok [4%Z]) by (vm_compute; reflexivity).
  split; [exact H|]. rewrite H. discriminate.
Qed.

(** ** Output file names *)

Lemma append_nil_l (b : string) : "" +:+ b = b.
Proof. reflexivity. Qed.

Lemma append_cons x (a b : string) : String x a +:+ b = String x (a +:+ b).
Proof. reflexivity. Qed.

Lemma string_app_assoc (a b c : string) : (a +:+ b) +:+ c = a +:+ (b +:+ c).
Proof.
  induction a as [|x a IH]; [reflexivity|]. rewrite !append_cons. now rewrite IH.
Qed.

Lemma string_length_app (a b : string) :
  String.length (a +:+ b) = (String.length a + String.length b)%nat.
Proof.
  induction a as [|x a IH]; [reflexivity|]. rewrite append_cons. simpl.
  now rewrite IH.
Qed.

Lemma substring_app_l (a b : string) : substring 0 (String.length a) (a +:+ b) = a.
Proof.
  induction a as [|x a IH]; [rewrite append_nil_l; now destruct b|].
  rewrite append_cons. simpl. now rewrite IH.
Qed.

Lemma substring_app_r (a b : string) n :
  substring (String.length a) n (a +:+ b) = substring 0 n b.
Proof.
  induction a as [|x a IH]; [reflexivity|]. rewrite append_cons. exact IH.
Qed.

Lemma prefix_app (a b : string) : String.prefix a (a +:+ b) = true.
Proof.
  induction a as [|x a IH]; [now destruct b|]. rewrite append_cons. simpl.
  destruct (ascii_dec x x); [exact IH | congruence].
Qed.

Lemma string_forall_app p (a b : string) :
  string_forall p (a +:+ b) = string_forall p a && string_forall p b.
Proof.
  induction a as [|x a IH]; [reflexivity|]. rewrite append_cons. simpl.
  now rewrite IH, andb_assoc.
Qed.

Lemma length_zeros n : String.length (zeros n) = n.
Proof. induction n as [|n IH]; simpl; [reflexivity | now rewrite IH]. Qed.

Lemma digits_zeros n : string_forall is_digit (zeros n) = true.
Proof. induction n as [|n IH]; simpl; [reflexivity | exact IH]. Qed.

Lemma digits_string_of_uint d :
  string_forall is_digit (NilEmpty.string_of_uint d) = true.
Proof. induction d; simpl; try reflexivity; assumption. Qed.

Lemma uint_of_string_zeros n (s : string) :
  NilEmpty.uint_of_string (zeros n +:+ s)
    = Nat.iter n Decimal.D0 <$> NilEmpty.uint_of_string s.
Proof.
  induction n as [|n IH]; simpl zeros.
  - rewrite append_nil_l. now destruct (NilEmpty.uint_of_string s).
  - rewrite append_cons. simpl. rewrite IH.
    now destruct (NilEmpty.uint_of_string s).
Qed.

Lemma of_uint_leading_zeros n d : N.of_uint (Nat.iter n Decimal.D0 d) = N.of_uint d.
Proof. induction n as [|n IH]; simpl; [reflexivity | exact IH]. Qed.

(** The digits written for a non-negative index, and their padding. *)
Lemma format_03d_nonneg idx :
  (0 <= idx)%Z →
  ∃ pad, format_03d idx
         = zeros pad +:+ NilEmpty.string_of_uint (N.to_uint (Z.to_N idx))
       ∧ (3 <= String.length (format_03d idx))%nat.
Proof.
  intros Hidx. unfold format_03d.
  destruct (Z.ltb_spec idx 0) as [|_]; [lia|].
  rewrite Z.abs_eq by exact Hidx.
  eexists. split; [reflexivity|].
  rewrite string_length_app, length_zeros. lia.
Qed.

Lemma digits_format_03d idx :
  (0 <= idx)%Z → string_forall is_digit (format_03d idx) = true.
Proof.
  intros Hidx. destruct (format_03d_nonneg idx Hidx) as (pad & -> & _).
  now rewrite string_forall_app, digits_zeros, digits_string_of_uint.
Qed.

Lemma parse_digits_format_03d idx :
  (0 <= idx)%Z → parse_digits (format_03d idx) = Some idx.
Proof.
  intros Hidx. destruct (format_03d_nonneg idx Hidx) as (pad & E & Hlen).
  unfold parse_digits. destruct (format_03d idx) as [|a s] eqn:Ef;
    [simpl in Hlen; lia|].
  rewrite E, uint_of_string_zeros, NilEmpty.usu. simpl.
  rewrite of_uint_leading_zeros, Unsigned.of_to. f_equal. lia.
Qed.

Lemma digit_not_space a : is_digit a = true → is_space a = false.
Proof.
  unfold is_digit, is_space. intros H.
  apply andb_true_iff in H as [H1 H2].
  apply Nat.leb_le in H1, H2.
  destruct (Nat.leb_spec 9 (nat_of_ascii a)), (Nat.leb_spec (nat_of_ascii a) 13),
    (Nat.leb_spec 28 (nat_of_ascii a)), (Nat.leb_spec (nat_of_ascii a) 32);
    simpl; try reflexivity; lia.
Qed.

Lemma digit_not_char a c :
  is_digit a = true → is_digit c = false → Ascii.eqb a c = false.
Proof.
  intros Ha Hc. destruct (Ascii.eqb_spec a c) as [->|]; [congruence | reflexivity].
Qed.

Lemma lstrip_digits (s : string) : string_forall is_digit s = true → lstrip s = s.
Proof.
  destruct s as [|a s]; simpl; [reflexivity|]. intros H.
  apply andb_true_iff in H as [Ha _]. now rewrite digit_not_space.
Qed.

Lemma rstrip_digits (s : string) : string_forall is_digit s = true → rstrip s = s.
Proof.
  induction s as [|a s IH]; simpl; [reflexivity|]. intros H.
  apply andb_true_iff in H as [Ha Hs].
  rewrite IH by exact Hs. now rewrite digit_not_space.
Qed.

Lemma py_int_of_string_format_03d idx :
  (0 <= idx)%Z → py_int_of_string (format_03d idx) = Some idx.
Proof.
  intros Hidx. pose proof (digits_format_03d idx Hidx) as Hd.
  pose proof (parse_digits_format_03d idx Hidx) as Hp.
  unfold py_int_of_string. rewrite lstrip_digits, rstrip_digits by exact Hd.
  destruct (format_03d idx) as [|a s]; [discriminate|].
  simpl in Hd. apply andb_true_iff in Hd as [Ha _].
  rewrite !(digit_not_char a) by (exact Ha || reflexivity). exact Hp.
Qed.

Lemma split_on_no_char (s : string) :
  no_underscore s = true → split_on "_" s = [s].
Proof.
  induction s as [|a s IH]; simpl; [reflexivity|]. intros H.
  apply andb_true_iff in H as [Ha Hs]. rewrite (IH Hs).
  now destruct (Ascii.eqb a "_").
Qed.

Lemma split_on_app (a b : string) :
  no_underscore a = true →
  split_on "_" (a +:+ String "_" b) = a :: split_on "_" b.
Proof.
  induction a as [|x a IH]; intros H.
  - rewrite append_nil_l. simpl.
    destruct (split_on "_" b) eqn:E; [|reflexivity].
    destruct b; simpl in E; [discriminate|].
    destruct (split_on "_" b); [discriminate|]. now destruct (Ascii.eqb _ _).
  - simpl in H. apply andb_true_iff in H as [Hx Ha].
    rewrite append_cons. simpl. rewrite (IH Ha).
    now destruct (Ascii.eqb x "_").
Qed.

Lemma digits_no_underscore (s : string) :
  string_forall is_digit s = true → no_underscore s = true.
Proof.
  unfold no_underscore. induction s as [|a s IH]; simpl; [reflexivity|].
  intros H. apply andb_true_iff in H as [Ha Hs].
  rewrite (digit_not_char a "_" Ha eq_refl). simpl. now apply IH.
Qed.

(** The loop of [next_index_for_class] reads back the index of every name
    that the drivers write for a label without underscore. *)
Lemma parsed_index_segment_file_name label idx :
  no_underscore label = true → (0 <= idx)%Z →
  parsed_index label (segment_file_name label idx) = Some idx.
Proof.
  intros Hlabel Hidx. unfold parsed_index, segment_file_name.
  set (fmt := format_03d idx).
  set (name := label +:+ "_" +:+ fmt +:+ ".csv").
  assert (E1 : name = (label +:+ "_") +:+ (fmt +:+ ".csv"))
    by (unfold name; now rewrite string_app_assoc).
  assert (E2 : name = (label +:+ String "_" fmt) +:+ ".csv").
  { unfold name. now rewrite string_app_assoc. }
  assert (Hlen : String.length name
                 = (String.length (label +:+ String "_" fmt) + 4)%nat)
    by (rewrite E2, string_length_app; reflexivity).
  assert (Hglob : glob_match label name = true).
  { unfold glob_match. rewrite E1 at 1. rewrite prefix_app.
    unfold ends_with. change (String.length ".csv") with 4%nat.
    rewrite Hlen, Nat.add_sub. rewrite E2 at 1. rewrite substring_app_r.
    rewrite string_length_app. simpl. apply Nat.leb_le. lia. }
  rewrite Hglob.
  assert (Hstem : stem name = label +:+ String "_" fmt).
  { unfold stem. rewrite Hlen, Nat.add_sub. rewrite E2. apply substring_app_l. }
  rewrite Hstem, split_on_app by exact Hlabel.
  rewrite split_on_no_char
    by (apply digits_no_underscore, digits_format_03d, Hidx).
  now apply py_int_of_string_format_03d.
Qed.

Lemma segment_file_name_inj label i j :
  no_underscore label = true → (0 <= i)%Z → (0 <= j)%Z →
  segment_file_name label i = segment_file_name label j → i = j.
Proof.
  intros Hlabel Hi Hj E.
  pose proof (parsed_index_segment_file_name label i Hlabel Hi) as Pi.
  rewrite E, parsed_index_segment_file_name in Pi by assumption. congruence.
Qed.

(** ** Output directories *)

Lemma fold_max_index (label : string) (names : list string) (m0 : Z) :
  let m :=
    fold_left
      (fun max_idx name =>
         match parsed_index label name with
         | Some idx => if (max_idx <? idx)%Z then idx else max_idx
         | None => max_idx
         end) names m0 in
  (m0 <= m)%Z
  ∧ (∀ name idx, In name names → parsed_index label name = Some idx →
       (idx <= m)%Z)
  ∧ (m = m0 ∨ ∃ name, In name names ∧ parsed_index label name = Some m).
Proof.
  revert m0. induction names as [|name names IH]; intros m0; cbn [fold_left].
  - split; [lia|]. split; [intros ? ? []|]. now left.
  - set (m1 := match parsed_index label name with
               | Some idx => if (m0 <? idx)%Z then idx else m0
               | None => m0
               end).
    destruct (IH m1) as (Hle & Hall & Hmax). cbv zeta in *.
    set (m := fold_left _ names m1) in *.
    assert (Hm01 : (m0 <= m1)%Z).
    { unfold m1. destruct (parsed_index label name) as [idx|]; [|lia].
      destruct (Z.ltb_spec m0 idx); lia. }
    split; [lia|]. split.
    + intros name' idx [<-|Hin] Hp; [|now apply (Hall name')].
      unfold m1 in Hle. rewrite Hp in Hle. destruct (Z.ltb_spec m0 idx); lia.
    + destruct Hmax as [Hm|(name' & Hin & Hp)].
      * unfold m1 in Hm. destruct (parsed_index label name) as [idx|] eqn:Hp;
          [|now left].
        destruct (Z.ltb_spec m0 idx); [|now left].
        right. exists name. split; [now left | congruence].
      * right. exists name'. split; [now right | exact Hp].
Qed.

Lemma In_directory_names (dir : gmap string ndarray) name :
  In name (map fst (map_to_list dir)) ↔ is_Some (dir !! name).
Proof.
  rewrite in_map_iff. split.
  - intros ([name' x] & <- & Hin). apply list_elem_of_In in Hin.
    apply elem_of_map_to_list in Hin. simpl. eauto.
  - intros [x Hx]. exists (name, x). split; [reflexivity|].
    apply list_elem_of_In. now apply elem_of_map_to_list.
Qed.

Lemma next_index_for_class_spec (label : string) (dir : gmap string ndarray) :
  let next := next_index_for_class label dir in
  (1 <= next)%Z
  ∧ (∀ name idx, is_Some (dir !! name) → parsed_index label name = Some idx →
       (idx < next)%Z)
  ∧ (next = 1%Z
     ∨ ∃ name, is_Some (dir !! name)
               ∧ parsed_index label name = Some (next - 1)%Z).
Proof.
  cbv zeta. unfold next_index_for_class.
  destruct (fold_max_index label (map fst (map_to_list dir)) 0)
    as (Hle & Hall & Hmax). cbv zeta in *.
  set (m := fold_left _ _ 0%Z) in *.
  split; [lia|]. split.
  - intros name idx Hname Hp. apply In_directory_names in Hname.
    pose proof (Hall name idx Hname Hp). lia.
  - destruct Hmax as [->|(name & Hin & Hp)]; [now left|].
    right. exists name. split; [now apply In_directory_names|].
    now rewrite Z.add_simpl_r.
Qed.

Lemma write_segments_spec (label : string) (segments : list ndarray) :
  no_underscore label = true →
  List.Forall (fun seg => ncols seg = 6%nat ∧ (1 <= nrows seg)%nat) segments →
  ∀ (idx count : Z) (dir : gmap string ndarray), (0 <= idx)%Z →
    let written := write_segments label segments idx count dir in
    snd written = Ok (count + Z.of_nat (length segments))%Z
    ∧ (∀ name,
         (∀ i, (i < length segments)%nat →
               name ≠ segment_file_name label (idx + Z.of_nat i)) →
         fst written !! name = dir !! name)
    ∧ (∀ i seg, segments !! i = Some seg →
         ∃ fixed, to_fixed_length seg SEGMENT_SAMPLES = Ok fixed
                  ∧ fst written !! segment_file_name label (idx + Z.of_nat i)
                    = Some fixed).
Proof.
  intros Hlabel. induction 1 as [|seg rest [Hd Hr] Hrest IH];
    intros idx count dir Hidx; cbv zeta.
  - simpl. split; [f_equal; lia|]. split; [reflexivity|].
    intros i seg Hi. discriminate.
  - destruct (to_fixed_length_total seg SEGMENT_SAMPLES Hd Hr) as [fixed Hfixed];
      [unfold SEGMENT_SAMPLES; lia|].
    cbn [write_segments]. rewrite Hfixed.
    set (dir1 := <[segment_file_name label idx := fixed]> dir).
    destruct (IH (idx + 1)%Z (count + 1)%Z dir1 ltac:(lia)) as (Hcount & Hother & Hnew).
    cbv zeta in *.
    set (written := write_segments label rest (idx + 1) (count + 1) dir1) in *.
    split; [rewrite Hcount; f_equal; simpl length; lia|]. split.
    + intros name Hname. rewrite Hother.
      * unfold dir1. apply lookup_insert_ne. intros E.
        apply (Hname 0%nat); [simpl; lia|]. now rewrite Z.add_0_r.
      * intros i Hi. replace (idx + 1 + Z.of_nat i)%Z with (idx + Z.of_nat (S i))%Z by lia.
        apply Hname. simpl. lia.
    + intros [|i] seg' Hseg.
      * injection Hseg as <-. exists fixed. split; [exact Hfixed|].
        rewrite Z.add_0_r, Hother; [apply lookup_insert_eq|].
        intros i Hi E.
        apply segment_file_name_inj in E; [lia | exact Hlabel | lia | lia].
      * destruct (Hnew i seg' Hseg) as (fixed' & Hf & Hl).
        exists fixed'. split; [exact Hf|].
        replace (idx + Z.of_nat (S i))%Z with (idx + 1 + Z.of_nat i)%Z by lia.
        exact Hl.
Qed.

Lemma written_name_dec (label : string) (next : Z) (name : string) (n : nat) :
  (∃ i, (i < n)%nat ∧ name = segment_file_name label (next + Z.of_nat i))
  ∨ (∀ i, (i < n)%nat → name ≠ segment_file_name label (next + Z.of_nat i)).
Proof.
  induction n as [|n [(i & Hi & E)|Hout]].
  - right. intros i Hi. lia.
  - left. exists i. split; [lia | exact E].
  - destruct (string_dec name (segment_file_name label (next + Z.of_nat n)))
      as [E|NE].
    + left. exists n. split; [lia | exact E].
    + right. intros i Hi. destruct (Nat.eq_dec i n) as [->|]; [exact NE|].
      apply Hout. lia.
Qed.

(** C6 (as amended). For a label without underscore and segments of six
    channels and at least one row: a written index [i >= 0] is formatted
    with at least three digits that read back as [i];
    [next_index_for_class] is one past the largest index found in the
    directory (1 when none is found); [process_new_folder] writes the
    [i]-th segment to [<label>_<next + i>.csv], a name that was not in the
    directory, keeps every file that was there and writes no other file;
    [process_class] writes the [i]-th segment to [<label>_<1 + i>.csv]
    whatever the directory holds. *)
Theorem segment_files_numbering (label : string) (segments : list ndarray)
    (dir : gmap string ndarray) :
  no_underscore label = true →
  List.Forall (fun seg => ncols seg = 6%nat ∧ (1 <= nrows seg)%nat) segments →
  let next := next_index_for_class label dir in
  let appended := process_new_folder label segments dir in
  let restarted := process_class label segments dir in
  (∀ i, (0 <= i)%Z →
     (3 <= String.length (format_03d i))%nat
     ∧ string_forall is_digit (format_03d i) = true
     ∧ py_int_of_string (format_03d i) = Some i)
  ∧ (1 <= next)%Z
  ∧ (∀ name idx, is_Some (dir !! name) → parsed_index label name = Some idx →
       (idx < next)%Z)
  ∧ (next = 1%Z
     ∨ ∃ name, is_Some (dir !! name)
               ∧ parsed_index label name = Some (next - 1)%Z)
  ∧ snd appended = Ok (Z.of_nat (length segments))
  ∧ dir ⊆ fst appended
  ∧ (∀ i seg, segments !! i = Some seg →
       dir !! segment_file_name label (next + Z.of_nat i) = None
       ∧ ∃ fixed,
           to_fixed_length seg SEGMENT_SAMPLES = Ok fixed
           ∧ fst appended !! segment_file_name label (next + Z.of_nat i)
             = Some fixed)
  ∧ (∀ name, is_Some (fst appended !! name) →
       is_Some (dir !! name)
       ∨ ∃ i, (i < length segments)%nat
              ∧ name = segment_file_name label (next + Z.of_nat i))
  ∧ snd restarted = Ok (Z.of_nat (length segments))
  ∧ (∀ i seg, segments !! i = Some seg →
       ∃ fixed,
         to_fixed_length seg SEGMENT_SAMPLES = Ok fixed
         ∧ fst restarted !! segment_file_name label (1 + Z.of_nat i)
           = Some fixed).
Proof.
  intros Hlabel Hsegs. cbv zeta.
  destruct (next_index_for_class_spec label dir) as (Hnext & Hbelow & Hmax).
  cbv zeta in *. set (next := next_index_for_class label dir) in *.
  unfold process_new_folder, process_class. fold next.
  destruct (write_segments_spec label segments Hlabel Hsegs next 0 dir ltac:(lia))
    as (Hcount & Hother & Hnew).
  destruct (write_segments_spec label segments Hlabel Hsegs 1 0 dir ltac:(lia))
    as (Hcount1 & _ & Hnew1).
  cbv zeta in *.
  assert (Hfresh : ∀ i, dir !! segment_file_name label (next + Z.of_nat i) = None).
  { intros i. destruct (dir !! _) as [x|] eqn:E; [|reflexivity].
    pose proof (Hbelow _ (next + Z.of_nat i)%Z (mk_is_Some _ _ E)
                  (parsed_index_segment_file_name label (next + Z.of_nat i)%Z
                     Hlabel ltac:(lia))).
    lia. }
  split.
  { intros i Hi. destruct (format_03d_nonneg i Hi) as (_ & _ & Hlen).
    split; [exact Hlen|].
    split; [now apply digits_format_03d | now apply py_int_of_string_format_03d]. }
  split; [exact Hnext|]. split; [exact Hbelow|]. split; [exact Hmax|].
  split; [exact Hcount|]. split.
  { apply map_subseteq_spec. intros name x Hx. rewrite Hother; [exact Hx|].
    intros i _ ->. rewrite Hfresh in Hx. discriminate. }
  split.
  { intros i seg Hseg. split; [apply Hfresh | now apply Hnew]. }
  split.
  { intros name Hname.
    destruct (dir !! name) as [x|] eqn:E; [left; eauto|]. right.
    destruct (written_name_dec label next name (length segments)) as [Hin|Hout];
      [exact Hin|].
    rewrite Hother, E in Hname by exact Hout. now destruct Hname. }
  split; [exact Hcount1 | exact Hnew1].
Qed.

Lemma segment_files_numbering_witness :
  let dir : gmap string ndarray :=
    {["Forehand_007.csv" := constant_array 100 6 0]} in
  (1 <= next_index_for_class "Forehand" dir)%Z
  ∧ dir ⊆ fst (process_new_folder "Forehand" [constant_array 2 6 1] dir).
Proof.
  cbv zeta.
  destruct (segment_files_numbering "Forehand" [constant_array 2 6 1]
              {["Forehand_007.csv" := constant_array 100 6 0]})
    as (_ & H1 & _ & _ & _ & H2 & _).
  - reflexivity.
  - constructor; [split; [reflexivity | vm_compute; lia] | constructor].
  - split; assumption.
Defined.

(** C6 (counterexample). A class directory that already holds
    [Forehand_001.csv]: one past the largest index present is 2, but
    [process_class] writes its first segment to [Forehand_001.csv], over
    the file that was there, and writes no [Forehand_002.csv]. *)
Lemma process_class_overwrites :
  let old := constant_array 100 6 0 in
  let seg := constant_array 100 6 1 in
  let dir : gmap string ndarray := {["Forehand_001.csv" := old]} in
  let dir' := fst (process_class "Forehand" [seg] dir) in
  next_index_for_class "Forehand" dir = 2%Z
  ∧ dir !! "Forehand_001.csv" = Some old
  ∧ dir' !! "Forehand_001.csv" = Some seg
  ∧ dir' !! "Forehand_002.csv" = None
  ∧ old ≠ seg.
Proof.
  cbv zeta. repeat split; try (vm_compute; reflexivity).
  intros H. apply (f_equal (fun a => nth 0 (nth 0 (rows a) []) 0)) in H.
  vm_compute in H. discriminate.
Qed.

(** * Further properties *)

(** ** Peak Detector: what the returned peaks are *)

Lemma min_gap_nil d : min_gap d [].
Proof. intros i a b H. discriminate. Qed.

Lemma min_gap_singleton d x : min_gap d [x].
Proof. intros i a b _ H. destruct i; discriminate. Qed.

Lemma min_gap_snoc d ps a b :
  min_gap d (ps ++ [a]) → (a + d <= b)%Z → min_gap d ((ps ++ [a]) ++ [b]).
Proof.
  intros Hgap Hab i x y Hx Hy.
  assert (Hi : (S i < length ((ps ++ [a]) ++ [b]))%nat)
    by (apply lookup_lt_is_Some; eauto).
  rewrite !length_app in Hi. simpl in Hi.
  destruct (Nat.eq_dec (S i) (length ps + 1)%nat) as [E|NE].
  - rewrite lookup_app_r in Hy by (rewrite length_app; simpl; lia).
    rewrite length_app in Hy. simpl in Hy.
    replace (S i - (length ps + 1))%nat with 0%nat in Hy by lia.
    injection Hy as <-.
    rewrite lookup_app_l in Hx by (rewrite length_app; simpl; lia).
    rewrite lookup_app_r in Hx by lia.
    replace (i - length ps)%nat with 0%nat in Hx by lia.
    injection Hx as <-. exact Hab.
  - rewrite lookup_app_l in Hx, Hy by (rewrite length_app; simpl; lia).
    now apply (Hgap i).
Qed.

Lemma min_gap_replace_last d ps a b :
  min_gap d (ps ++ [a]) → (a <= b)%Z → min_gap d (ps ++ [b]).
Proof.
  intros Hgap Hab i x y Hx Hy.
  assert (Hi : (S i < length (ps ++ [b]))%nat)
    by (apply lookup_lt_is_Some; eauto).
  rewrite length_app in Hi. simpl in Hi.
  rewrite lookup_app_l in Hx by lia.
  destruct (Nat.eq_dec (S i) (length ps)) as [E|NE].
  - rewrite lookup_app_r in Hy by lia.
    replace (S i - length ps)%nat with 0%nat in Hy by lia.
    injection Hy as <-.
    assert (x + d <= a)%Z; [|lia].
    apply (Hgap i).
    + now rewrite lookup_app_l by lia.
    + rewrite lookup_app_r by lia.
      now replace (S i - length ps)%nat with 0%nat by lia.
  - rewrite lookup_app_l in Hy by lia.
    apply (Hgap i); now rewrite lookup_app_l by lia.
Qed.

(** What the spacing loop keeps, whenever it returns: the kept peaks are
    among the candidates, neighbours are at least [min_dist] apart, and no
    more peaks are kept than candidates are offered. *)
Lemma enforce_spacing_kept (P : Z → Prop) smooth min_dist candidates :
  ∀ st st',
    enforce_spacing smooth min_dist st candidates = Ok st' →
    StronglySorted Z.lt candidates → List.Forall P candidates →
    List.Forall P (fst st) → min_gap min_dist (fst st) →
    (fst st = [] ∨
     ∃ ps, fst st = ps ++ [snd st]
           ∧ List.Forall (fun c => (snd st < c)%Z) candidates) →
    List.Forall P (fst st') ∧ min_gap min_dist (fst st')
    ∧ (length (fst st') <= length (fst st) + length candidates)%nat.
Proof.
  induction candidates as [|idx rest IH]; intros [peaks last_idx] st' Hres
    Hsorted HP Hpeaks Hgap Hlast; simpl in *.
  - injection Hres as <-. simpl. repeat split; [assumption .. | lia].
  - apply StronglySorted_inv in Hsorted as [Hsorted Hidx].
    apply List.Forall_cons_iff in HP as [HPidx HP].
    assert (Hnext : ∀ ps, List.Forall P (ps ++ [idx]) →
              min_gap min_dist (ps ++ [idx]) →
              (length (ps ++ [idx]) <= S (length peaks))%nat →
              enforce_spacing smooth min_dist (ps ++ [idx], idx) rest = Ok st' →
              List.Forall P (fst st') ∧ min_gap min_dist (fst st')
              ∧ (length (fst st') <= length peaks + S (length rest))%nat).
    { intros ps H1 H2 H3 H4.
      destruct (IH (ps ++ [idx], idx) st' H4 Hsorted HP H1 H2) as (R1 & R2 & R3).
      - right. exists ps. split; [reflexivity | exact Hidx].
      - simpl in R3. repeat split; [assumption .. | lia]. }
    destruct (Z.leb_spec min_dist (idx - last_idx)) as [Hfar|Hnear].
    + cbn [mbind result_bind] in Hres.
      destruct Hlast as [->|(ps & -> & Hlt)].
      * apply (Hnext []); [now repeat constructor | apply min_gap_singleton
                          | simpl; lia | exact Hres].
      * apply (Hnext (ps ++ [last_idx])).
        -- apply List.Forall_app. split; [exact Hpeaks | now repeat constructor].
        -- apply min_gap_snoc; [exact Hgap | lia].
        -- rewrite !length_app. simpl. lia.
        -- exact Hres.
    + destruct (py_getitem smooth idx) as [s|]; [|discriminate].
      destruct (py_getitem smooth last_idx) as [l|]; [|discriminate].
      cbn [mbind result_bind] in Hres.
      destruct (Qltb l s).
      * destruct Hlast as [->|(ps & -> & Hlt)]; [discriminate|].
        unfold py_set_last in Hres.
        destruct (ps ++ [last_idx]) as [|p0 ps0] eqn:E; [now destruct ps|].
        rewrite <- E, removelast_last in Hres.
        cbn [mbind result_bind] in Hres. rewrite <- E in *.
        apply List.Forall_cons_iff in Hlt as [Hlt _].
        apply (Hnext ps).
        -- apply List.Forall_app in Hpeaks as [Hps _].
           apply List.Forall_app. split; [exact Hps | now repeat constructor].
        -- apply (min_gap_replace_last _ _ last_idx); [exact Hgap | lia].
        -- rewrite !length_app. simpl. lia.
        -- exact Hres.
      * cbn [mbind result_bind] in Hres.
        destruct (IH (peaks, last_idx) st' Hres Hsorted HP Hpeaks Hgap)
          as (R1 & R2 & R3).
        -- destruct Hlast as [->|(ps & -> & Hlt)]; [now left|].
           right. exists ps. split; [reflexivity|].
           now apply List.Forall_cons_iff in Hlt as [_ Hlt].
        -- simpl in R3. repeat split; [assumption .. | lia].
Qed.

(** The peaks of a signal of three samples or more, whenever the detector
    returns. *)
Lemma smooth_and_detect_peaks_kept (signal : list Q)
    (fs thresh_factor min_distance_sec : Q) (peaks : list Z) :
  (3 <= length signal)%nat →
  smooth_and_detect_peaks signal fs thresh_factor min_distance_sec = Ok peaks →
  ∃ smooth,
    moving_average signal fs = Ok smooth
    ∧ (length signal <= length smooth)%nat
    ∧ List.Forall
        (fun i => In i (py_range 1 (Z.of_nat (length signal) - 1))
                  ∧ candidate_test smooth (np_mean smooth) thresh_factor
                      (guarded_var smooth) i = true) peaks
    ∧ min_gap (py_int (min_distance_sec * fs)) peaks
    ∧ (length peaks
       <= length (List.filter
                    (candidate_test smooth (np_mean smooth) thresh_factor
                       (guarded_var smooth))
                    (py_range 1 (Z.of_nat (length signal) - 1))))%nat.
Proof.
  intros Hn Hres.
  destruct (smooth_and_detect_peaks_steps signal fs thresh_factor
              min_distance_sec Hn) as (smooth & Hsmooth & Hlen & Hsteps).
  rewrite Hsteps in Hres. clear Hsteps.
  exists smooth. split; [exact Hsmooth|]. split; [exact Hlen|].
  set (test := candidate_test smooth (np_mean smooth) thresh_factor
                 (guarded_var smooth)) in *.
  set (range := py_range 1 (Z.of_nat (length signal) - 1)) in *.
  destruct (List.filter test range) as [|c cs] eqn:Ec.
  { injection Hres as <-. repeat split; [constructor | apply min_gap_nil | simpl; lia]. }
  rewrite <- Ec in *. cbv zeta in Hres.
  destruct (enforce_spacing _ _ _ _) as [[peaks' last_idx]|] eqn:Hloop;
    [|discriminate].
  cbn [mbind result_bind] in Hres. injection Hres as ->.
  destruct (enforce_spacing_kept
              (fun i => In i range ∧ test i = true) smooth
              (py_int (min_distance_sec * fs)) (List.filter test range)
              _ _ Hloop) as (R1 & R2 & R3).
  - apply filter_sorted, py_range_sorted.
  - apply List.Forall_forall. intros i Hi. now apply filter_In in Hi.
  - constructor.
  - apply min_gap_nil.
  - now left.
  - simpl in *. repeat split; assumption.
Qed.

Lemma Qsum_nonneg (l : list Q) : List.Forall (fun x => 0 <= x) l → 0 <= Qsum l.
Proof.
  induction 1 as [|x l Hx Hl IH]; unfold Qsum in *; simpl; lra.
Qed.

Lemma np_var_nonneg (l : list Q) : 0 <= np_var l.
Proof.
  unfold np_var, np_mean at 1. cbv zeta. unfold Qdiv.
  apply Qmult_le_0_compat.
  - apply Qsum_nonneg. apply List.Forall_forall. intros y Hy.
    apply in_map_iff in Hy as (x & <- & _).
    match goal with |- 0 <= ?d * ?d => generalize d; intros d' end.
    destruct (Qlt_le_dec d' 0); nra.
  - apply Qinv_le_0_compat. change 0 with (inject_Z 0).
    rewrite <- Zle_Qle. lia.
Qed.

Lemma guarded_var_nonneg (l : list Q) : 0 <= guarded_var l.
Proof.
  unfold guarded_var. destruct (Qeq_bool (np_var l) 0); [lra|].
  apply np_var_nonneg.
Qed.

(** X1. Every index that [smooth_and_detect_peaks] returns is a local
    maximum of the smoothed signal above the threshold: it is an interior
    index whose smoothed value exceeds [mean + thresh_factor * std], with
    [std] the square root of the variance of the smoothed signal (1 when
    that variance is zero), and is not below either neighbour.  A signal of
    fewer than three samples has no peak. *)
Theorem detected_peaks_are_local_maxima (signal : list Q)
    (fs thresh_factor min_distance_sec : Q) (peaks : list Z) :
  smooth_and_detect_peaks signal fs thresh_factor min_distance_sec = Ok peaks →
  ((length signal < 3)%nat → peaks = []) ∧
  ((3 <= length signal)%nat →
   ∃ smooth,
     moving_average signal fs = Ok smooth
     ∧ (length signal <= length smooth)%nat
     ∧ ∀ i, In i peaks →
         let s k := nth (Z.to_nat k) smooth 0 in
         (1 <= i <= Z.of_nat (length signal) - 2)%Z
         ∧ (Q2R (np_mean smooth)
            + Q2R thresh_factor * sqrt (Q2R (guarded_var smooth))
            < Q2R (s i))%R
         ∧ s (i - 1)%Z <= s i ∧ s (i + 1)%Z <= s i).
Proof.
  intros Hres. split.
  - intros Hn. unfold smooth_and_detect_peaks in Hres.
    destruct (Z.ltb_spec (Z.of_nat (length signal)) 3) as [_|]; [|lia].
    congruence.
  - intros Hn.
    destruct (smooth_and_detect_peaks_kept signal fs thresh_factor
                min_distance_sec peaks Hn Hres)
      as (smooth & Hsmooth & Hlen & Hall & _ & _).
    exists smooth. split; [exact Hsmooth|]. split; [exact Hlen|].
    intros i Hi. cbv zeta. rewrite List.Forall_forall in Hall.
    destruct (Hall i Hi) as [Hrange Htest].
    apply py_range_In in Hrange. unfold candidate_test in Htest.
    cbv zeta in Htest.
    apply andb_true_iff in Htest as [Htest Hq].
    apply andb_true_iff in Htest as [Ha Hp].
    apply above_thresh_sqrt in Ha; [|apply guarded_var_nonneg].
    apply Qle_bool_iff in Hp, Hq. repeat split; try assumption; lia.
Qed.

Lemma detected_peaks_are_local_maxima_witness :
  ∃ smooth,
    moving_average [0; 0; 0; 0; 1; 0; 0; 0; 0; 0; 0; 0] FS_TARGET = Ok smooth
    ∧ (12 <= length smooth)%nat
    ∧ ∀ i, In i [2%Z] →
        let s k := nth (Z.to_nat k) smooth 0 in
        (1 <= i <= 12 - 2)%Z
        ∧ (Q2R (np_mean smooth) + Q2R 1 * sqrt (Q2R (guarded_var smooth))
           < Q2R (s i))%R
        ∧ s (i - 1)%Z <= s i ∧ s (i + 1)%Z <= s i.
Proof.
  apply (proj2 (detected_peaks_are_local_maxima
                  [0; 0; 0; 0; 1; 0; 0; 0; 0; 0; 0; 0] FS_TARGET 1 (3 # 10)
                  [2%Z] ltac:(vm_compute; reflexivity))).
  simpl. lia.
Defined.

(** X2. Neighbouring peaks returned by [smooth_and_detect_peaks] are at
    least [int(min_distance_sec * fs)] samples apart: a replacement moves
    the last kept peak to a later index only, so it never brings it closer
    to the peak before it. *)
Theorem detected_peaks_min_distance (signal : list Q)
    (fs thresh_factor min_distance_sec : Q) (peaks : list Z) :
  smooth_and_detect_peaks signal fs thresh_factor min_distance_sec = Ok peaks →
  ∀ i a b, peaks !! i = Some a → peaks !! S i = Some b →
    (a + py_int (min_distance_sec * fs) <= b)%Z.
Proof.
  intros Hres.
  destruct (Nat.lt_ge_cases (length signal) 3) as [Hsmall|Hn].
  - unfold smooth_and_detect_peaks in Hres.
    destruct (Z.ltb_spec (Z.of_nat (length signal)) 3) as [_|]; [|lia].
    injection Hres as <-. intros i a b H. discriminate.
  - destruct (smooth_and_detect_peaks_kept signal fs thresh_factor
                min_distance_sec peaks Hn Hres)
      as (smooth & _ & _ & _ & Hgap & _).
    exact Hgap.
Qed.

Lemma detected_peaks_min_distance_witness :
  smooth_and_detect_peaks [0; 0; 0; 0; 4; 0; 0; 0; 0; 5; 0; 0; 0; 0]
    FS_TARGET 0 (1 # 20) = Ok [2%Z; 7%Z]
  ∧ ∀ i a b, [2%Z; 7%Z] !! i = Some a → [2%Z; 7%Z] !! S i = Some b →
      (a + py_int ((1 # 20) * FS_TARGET) <= b)%Z.
Proof.
  assert (H : smooth_and_detect_peaks
                [0; 0; 0; 0; 4; 0; 0; 0; 0; 5; 0; 0; 0; 0]
                FS_TARGET 0 (1 # 20) = Ok [2%Z; 7%Z])
    by (vm_compute; reflexivity).
  split; [exact H|].
  exact (detected_peaks_min_distance _ _ _ _ _ H).
Defined.

(** ** Grid Resampler: cleaning *)

Lemma insert_by_time_In p x l : In p (insert_by_time x l) ↔ p = x ∨ In p l.
Proof.
  induction l as [|y l IH]; simpl.
  - intuition.
  - destruct (Qle_bool (fst x) (fst y)); simpl; intuition.
Qed.

Lemma sort_by_time_In p l : In p (sort_by_time l) ↔ In p l.
Proof.
  induction l as [|x l IH]; simpl; [reflexivity|].
  rewrite insert_by_time_In, IH. intuition.
Qed.

Lemma mask_after_In prev l p : In p (mask_after prev l) → In p l.
Proof.
  revert prev. induction l as [|x l IH]; intros prev; simpl; [tauto|].
  destruct (Qltb prev (fst x)); simpl; intros H.
  - destruct H as [H|H]; [now left | right; eapply IH; exact H].
  - right. eapply IH; exact H.
Qed.

Lemma mask_after_covers prev l :
  StronglySorted time_le l → List.Forall (fun x => prev <= fst x) l →
  ∀ p, In p l →
    fst p == prev ∨ ∃ q, In q (mask_after prev l) ∧ fst q == fst p.
Proof.
  intros Hs. revert prev.
  induction Hs as [|x l Hs IH Hx]; intros prev Hp p Hin; [destruct Hin|].
  apply List.Forall_cons_iff in Hp as [Hpx Hpl]. simpl.
  assert (Hrest : ∀ p, In p l →
            fst p == fst x
            ∨ ∃ q, In q (mask_after (fst x) l) ∧ fst q == fst p).
  { apply IH. eapply List.Forall_impl; [|exact Hx]. intros y Hy. exact Hy. }
  destruct (Qltb prev (fst x)) eqn:E.
  - right. destruct Hin as [<-|Hin].
    + exists x. split; [now left | reflexivity].
    + destruct (Hrest p Hin) as [Heq|(q & Hq & Heq)].
      * exists x. split; [now left | now symmetry].
      * exists q. split; [now right | exact Heq].
  - apply Qltb_ge in E. destruct Hin as [<-|Hin].
    + left. lra.
    + destruct (Hrest p Hin) as [Heq|(q & Hq & Heq)].
      * left. lra.
      * right. exists q. split; assumption.
Qed.

Lemma clean_trace_In (t : list Q) (xyz : ndarray) p :
  In p (clean_trace t xyz) → In p (combine t (rows xyz)).
Proof.
  unfold clean_trace. intros Hp. apply sort_by_time_In.
  destruct (sort_by_time (combine t (rows xyz))) as [|x l]; [destruct Hp|].
  destruct Hp as [<-|Hp]; [now left|]. right. eapply mask_after_In, Hp.
Qed.

(** X3. The cleaning step of [resample_to_grid] keeps exactly the distinct
    timestamps: the cleaned times are strictly increasing, every cleaned
    sample is a sample of the input with its own row, every input timestamp
    is still present, and a trace whose times are already strictly
    increasing is left as it is. *)
Theorem clean_trace_distinct_times (t : list Q) (xyz : ndarray) :
  StronglySorted Qlt (cleaned_times t xyz)
  ∧ (∀ p, In p (clean_trace t xyz) → In p (combine t (rows xyz)))
  ∧ (∀ p, In p (combine t (rows xyz)) →
       ∃ q, In q (clean_trace t xyz) ∧ fst q == fst p)
  ∧ (nrows xyz = length t → StronglySorted Qlt t →
     clean_trace t xyz = combine t (rows xyz)).
Proof.
  split; [apply cleaned_times_increasing|].
  split; [apply clean_trace_In|].
  unfold clean_trace.
  pose proof (sort_by_time_sorted (combine t (rows xyz))) as Hs.
  pose proof (fun p => sort_by_time_In p (combine t (rows xyz))) as Hin.
  split.
  - intros p Hp. apply Hin in Hp.
    destruct (sort_by_time (combine t (rows xyz))) as [|x l]; [destruct Hp|].
    apply StronglySorted_inv in Hs as [Hs Hx]. simpl.
    destruct Hp as [<-|Hp].
    + exists x. split; [now left | reflexivity].
    + destruct (mask_after_covers (fst x) l Hs) with (p := p)
        as [Heq|(q & Hq & Heq)].
      * eapply List.Forall_impl; [|exact Hx]. intros y Hy. exact Hy.
      * exact Hp.
      * exists x. split; [now left | now symmetry].
      * exists q. split; [now right | exact Heq].
  - intros Hshape Hsorted.
    assert (Hfst : map fst (combine t (rows xyz)) = t).
    { unfold nrows in Hshape. revert Hshape. generalize (rows xyz).
      clear. induction t as [|a t IH]; intros [|r rs] Hlen; simpl in *;
        try reflexivity; try discriminate.
      f_equal. apply IH. lia. }
    rewrite sort_by_time_increasing by (now rewrite Hfst).
    destruct (combine t (rows xyz)) as [|x l] eqn:E; [reflexivity|].
    simpl. rewrite mask_after_increasing_id; [reflexivity|].
    simpl in Hfst. now rewrite Hfst.
Qed.

Lemma clean_trace_distinct_times_witness :
  clean_trace [0; 1 # 2; 1] (mk_array 1 [[5]; [6]; [7]])
    = combine [0; 1 # 2; 1] [[5]; [6]; [7]].
Proof.
  apply (proj2 (proj2 (proj2 (clean_trace_distinct_times
                                [0; 1 # 2; 1] (mk_array 1 [[5]; [6]; [7]]))))).
  - reflexivity.
  - repeat constructor.
Defined.

(** ** Grid Resampler: which call returns *)

(** X4. [resample_to_grid] checks in this order: a row count that differs
    from the number of timestamps is a [ValueError], then [fs = 0] is a
    [ZeroDivisionError], then an empty trace is an [IndexError]; in every
    other case, a negative [fs] included, it returns a grid and an array
    with one row per grid point and the columns of the input. *)
Theorem resample_to_grid_returns (t : list Q) (xyz : ndarray) (fs : Q) :
  (nrows xyz ≠ length t →
   resample_to_grid t xyz fs = Raise ValueError_shapes)
  ∧ (nrows xyz = length t → fs == 0 →
     resample_to_grid t xyz fs = Raise ZeroDivisionError)
  ∧ (nrows xyz = length t → ¬ fs == 0 → t = [] →
     resample_to_grid t xyz fs = Raise IndexError)
  ∧ (nrows xyz = length t → ¬ fs == 0 → t ≠ [] →
     ∃ g out, resample_to_grid t xyz fs = Ok (g, out)
              ∧ nrows out = length g ∧ ncols out = ncols xyz
              ∧ wf_array out).
Proof.
  repeat split.
  - intros Hshape. unfold resample_to_grid.
    now rewrite (proj2 (Nat.eqb_neq _ _) Hshape).
  - intros Hshape Hfs. unfold resample_to_grid.
    rewrite (proj2 (Nat.eqb_eq _ _) Hshape). simpl negb. cbv iota zeta.
    now rewrite (proj2 (Qeq_bool_iff _ _) Hfs).
  - intros Hshape Hfs ->. apply resample_to_grid_empty; [exact Hshape | exact Hfs|].
    reflexivity.
  - intros Hshape Hfs Hne.
    destruct (cleaned_times t xyz) as [|t0 rest] eqn:Hclean.
    { now apply cleaned_times_nonempty in Hclean. }
    unfold resample_to_grid.
    rewrite (proj2 (Nat.eqb_eq _ _) Hshape). simpl negb. cbv iota zeta.
    rewrite (Qeq_bool_false _ _ Hfs).
    change (map fst (clean_trace t xyz)) with (cleaned_times t xyz).
    rewrite Hclean, py_getitem_first. cbn [mbind result_bind].
    rewrite py_getitem_last. cbn [mbind result_bind].
    rewrite interp_columns_ok.
    + cbn [mbind result_bind]. eexists _, _. split; [reflexivity|].
      rewrite nrows_from_columns. split; [reflexivity|].
      split; [|apply wf_from_columns].
      unfold from_columns; simpl. now rewrite length_map, length_seq.
    + rewrite <- Hclean. unfold nrows, cleaned_times; simpl.
      now rewrite !length_map.
    + discriminate.
Qed.

Lemma resample_to_grid_returns_witness :
  resample_to_grid [0; 1] (mk_array 1 [[5]]) 100 = Raise ValueError_shapes
  ∧ resample_to_grid [0; 1] (mk_array 1 [[5]; [6]]) 0 = Raise ZeroDivisionError
  ∧ resample_to_grid [] (mk_array 1 []) 100 = Raise IndexError
  ∧ ∃ g out, resample_to_grid [0; 1] (mk_array 1 [[5]; [6]]) (-2) = Ok (g, out)
             ∧ nrows out = length g ∧ ncols out = 1%nat ∧ wf_array out.
Proof.
  split; [|split; [|split]].
  - apply (proj1 (resample_to_grid_returns [0; 1] (mk_array 1 [[5]]) 100)).
    vm_compute. discriminate.
  - apply (proj1 (proj2 (resample_to_grid_returns
                           [0; 1] (mk_array 1 [[5]; [6]]) 0)));
      reflexivity.
  - apply (proj1 (proj2 (proj2 (resample_to_grid_returns
                                  [] (mk_array 1 []) 100)))).
    + reflexivity.
    + intros H. vm_compute in H. discriminate.
    + reflexivity.
  - apply (proj2 (proj2 (proj2 (resample_to_grid_returns
                                  [0; 1] (mk_array 1 [[5]; [6]]) (-2))))).
    + reflexivity.
    + intros H. vm_compute in H. discriminate.
    + discriminate.
Defined.

(** ** Interpolated arrays *)

Lemma nth_map_default {A} (f : A → Q) (l : list A) (d : A) j :
  (j < length l)%nat → nth j (map f l) 0 = f (nth j l d).
Proof.
  revert j. induction l as [|a l IH]; intros [|j] Hj; simpl in *;
    try lia; [reflexivity|].
  apply IH. lia.
Qed.

Lemma nth_map_seq_any {A} (h : nat → A) (d0 : A) n j :
  (j < n)%nat → nth j (map h (seq 0 n)) d0 = h j.
Proof.
  intros Hj. rewrite (nth_indep _ d0 (h 0%nat))
    by (now rewrite length_map, length_seq).
  now rewrite map_nth, seq_nth.
Qed.

Lemma increasing_map_seq (f : nat → Q) s n :
  (∀ i j, (i < j)%nat → f i < f j) → StronglySorted Qlt (map f (seq s n)).
Proof.
  intros Hf. revert s. induction n as [|n IH]; intros s; simpl; constructor.
  - apply IH.
  - apply List.Forall_forall. intros y Hy.
    apply in_map_iff in Hy as (j & <- & Hj). apply in_seq in Hj.
    apply Hf. lia.
Qed.

Lemma np_linspace_increasing a b num :
  a < b → StronglySorted Qlt (np_linspace a b num).
Proof.
  intros Hab. unfold np_linspace.
  destruct (Z.eqb_spec num 1) as [|Hne]; [repeat constructor|].
  destruct (Z.le_gt_cases num 0) as [Hle|Hgt].
  { replace (Z.to_nat num) with 0%nat by lia. constructor. }
  apply increasing_map_seq. intros i j Hij.
  assert (Hstep : 0 < (b - a) / inject_Z (num - 1)).
  { apply Qlt_shift_div_l; [|lra].
    change 0 with (inject_Z 0). rewrite <- Zlt_Qlt. lia. }
  assert (inject_Z (Z.of_nat i) < inject_Z (Z.of_nat j))
    by (rewrite <- Zlt_Qlt; lia).
  nra.
Qed.

(** ** Fixed-Length Normalizer: the two ends *)

Lemma interp_one_first (x x0 f0 : Q) xp fp :
  StronglySorted Qlt (x0 :: xp) → length xp = length fp → x == x0 →
  interp_one x (x0 :: xp) (f0 :: fp) = f0.
Proof.
  intros Hs Hlen Hx. unfold interp_one.
  rewrite Qltb_false by lra.
  destruct xp as [|x1 xp]; destruct fp as [|f1 fp]; try discriminate;
    [reflexivity|].
  cbn [interp_walk].
  apply StronglySorted_inv in Hs as [_ Hlt].
  apply List.Forall_cons_iff in Hlt as [Hlt _].
  rewrite Qltb_true by lra.
  now rewrite (proj2 (Qeq_bool_iff x x0) Hx).
Qed.

Lemma interp_walk_last (x : Q) : ∀ xp fp,
  length xp = length fp → fp ≠ [] → List.Forall (fun y => y <= x) xp →
  interp_walk x xp fp = List.last fp 0.
Proof.
  induction xp as [|x0 xp IH]; intros fp Hlen Hne Hle.
  - destruct fp; [congruence | discriminate].
  - destruct fp as [|f0 fp]; [discriminate|].
    destruct xp as [|x1 xp]; destruct fp as [|f1 fp]; try discriminate;
      [reflexivity|].
    apply List.Forall_cons_iff in Hle as [_ Hle].
    pose proof Hle as Hle'. apply List.Forall_cons_iff in Hle' as [Hx1 _].
    cbn [interp_walk]. rewrite Qltb_false by exact Hx1.
    change (interp_walk x (x1 :: xp) (f1 :: fp) = List.last (f1 :: fp) 0).
    apply IH; [simpl in *; lia | discriminate | exact Hle].
Qed.

Lemma interp_one_last (x : Q) xp fp :
  length xp = length fp → xp ≠ [] → List.Forall (fun y => y <= x) xp →
  interp_one x xp fp = List.last fp 0.
Proof.
  intros Hlen Hne Hle.
  destruct xp as [|x0 xp]; [congruence|].
  destruct fp as [|f0 fp]; [discriminate|].
  unfold interp_one.
  pose proof Hle as Hle'. apply List.Forall_cons_iff in Hle' as [Hx0 _].
  rewrite Qltb_false by exact Hx0.
  apply interp_walk_last; [exact Hlen | discriminate | exact Hle].
Qed.

Lemma np_linspace_le_stop a b num :
  a <= b → List.Forall (fun y => y <= b) (np_linspace a b num).
Proof.
  intros Hab. unfold np_linspace.
  destruct (Z.eqb_spec num 1) as [|Hne]; [now repeat constructor|].
  apply List.Forall_forall. intros y Hy.
  apply in_map_iff in Hy as (i & <- & Hi). apply in_seq in Hi.
  assert (Hk : 0 < inject_Z (num - 1)).
  { change 0 with (inject_Z 0). rewrite <- Zlt_Qlt. lia. }
  assert (Hi' : inject_Z (Z.of_nat i) <= inject_Z (num - 1)).
  { rewrite <- Zle_Qle. lia. }
  assert (Hi0 : 0 <= inject_Z (Z.of_nat i)).
  { change 0 with (inject_Z 0). rewrite <- Zle_Qle. lia. }
  set (s := (b - a) / inject_Z (num - 1)).
  assert (Hs : s * inject_Z (num - 1) == b - a) by (unfold s; field; lra).
  assert (Hs0 : 0 <= s) by (unfold s; apply Qle_shift_div_l; lra).
  nra.
Qed.

Lemma np_linspace_first a b num :
  (1 <= num)%Z → ∃ x rest, np_linspace a b num = x :: rest ∧ x == a.
Proof.
  intros Hn. unfold np_linspace.
  destruct (Z.eqb_spec num 1) as [|Hne].
  - exists a, []. split; reflexivity.
  - destruct (Z.to_nat num) as [|m] eqn:E; [lia|]. simpl.
    eexists _, _. split; [reflexivity|].
    change (inject_Z (Z.of_nat 0)) with 0. rewrite Qmult_0_l. lra.
Qed.

Lemma np_linspace_last a b num :
  (2 <= num)%Z → List.last (np_linspace a b num) 0 == b.
Proof.
  intros Hn. unfold np_linspace.
  destruct (Z.eqb_spec num 1) as [|Hne]; [lia|].
  destruct (Z.to_nat num) as [|m] eqn:E; [lia|].
  rewrite seq_S, map_app. cbn [map]. rewrite last_last. simpl.
  assert (Hm : inject_Z (Z.of_nat m) == inject_Z (num - 1)).
  { replace (Z.of_nat m) with (num - 1)%Z by lia. reflexivity. }
  rewrite Hm. field.
  intros H. unfold Qeq in H. simpl in H. lia.
Qed.

Lemma last_map {A B} (f : A → B) (l : list A) (d : A) (d' : B) :
  l ≠ [] → List.last (map f l) d' = f (List.last l d).
Proof.
  induction l as [|a l IH]; [congruence|]. intros _.
  destruct l as [|b l]; [reflexivity|].
  change (List.last (map f (b :: l)) d' = f (List.last (b :: l) d)).
  apply IH. discriminate.
Qed.

Lemma row_eta (r : list Q) n :
  length r = n → map (fun j => nth j r 0) (seq 0 n) = r.
Proof.
  intros Hn. apply (nth_ext _ _ 0 0).
  - now rewrite length_map, length_seq.
  - intros i Hi. rewrite length_map, length_seq in Hi.
    now rewrite nth_map_seq_any.
Qed.

Lemma hd_nth0 {A} (l : list A) (d : A) : hd d l = nth 0 l d.
Proof. now destruct l. Qed.

(** Row [i] of an interpolated array. *)
Lemma interp_columns_row x xp a d i :
  (i < length x)%nat →
  nth i (rows (from_columns (length x)
                 (map (fun k => map (fun xi => interp_one xi xp (column k a)) x)
                      (seq 0 d)))) []
    = map (fun k => interp_one (nth i x 0) xp (column k a)) (seq 0 d).
Proof.
  intros Hi. unfold from_columns; simpl.
  rewrite nth_map_seq_any by exact Hi.
  rewrite map_map. apply map_ext. intros k.
  now rewrite (nth_map_default _ _ 0) by exact Hi.
Qed.

(** X7. [to_fixed_length] keeps the two ends of the segment: for a target
    length of at least 2, the first row of the normalised segment is the
    first row of the segment and its last row is the last row of the
    segment. *)
Theorem to_fixed_length_endpoints (seg : ndarray) (target_len : Z) :
  ncols seg = 6%nat → wf_array seg → (1 <= nrows seg)%nat →
  (2 <= target_len)%Z →
  ∃ out, to_fixed_length seg target_len = Ok out
         ∧ hd [] (rows out) = hd [] (rows seg)
         ∧ List.last (rows out) [] = List.last (rows seg) [].
Proof.
  intros Hd Hwf Hrows HL. unfold to_fixed_length.
  rewrite (proj2 (Nat.eqb_eq _ _) Hd). simpl negb. cbv iota.
  destruct (Z.eqb_spec (Z.of_nat (nrows seg)) target_len) as [|Hne].
  { exists seg. repeat split. }
  destruct (Z.ltb_spec target_len 0) as [|_]; [lia|].
  set (old_x := np_linspace 0 1 (Z.of_nat (nrows seg))).
  set (new_x := np_linspace 0 1 target_len).
  assert (Hold : length old_x = nrows seg).
  { unfold old_x. rewrite length_np_linspace by lia. lia. }
  assert (Hnew : length new_x = Z.to_nat target_len).
  { unfold new_x. now rewrite length_np_linspace by lia. }
  assert (Hold_ne : old_x ≠ []) by (apply np_linspace_nonempty; lia).
  rewrite interp_columns_ok by assumption. rewrite Hd.
  eexists. split; [reflexivity|].
  assert (Hsorted : StronglySorted Qlt old_x)
    by (apply np_linspace_increasing; lra).
  destruct (rows seg) as [|r0 rs] eqn:Erows; [unfold nrows in Hrows;
                                              rewrite Erows in Hrows;
                                              simpl in Hrows; lia|].
  assert (Hwf' : List.Forall (fun r => length r = 6%nat) (r0 :: rs)).
  { unfold wf_array in Hwf. now rewrite Erows, Hd in Hwf. }
  split.
  - rewrite hd_nth0, interp_columns_row by lia.
    destruct (np_linspace_first 0 1 (Z.of_nat (nrows seg)))
      as (x0 & xrest & Ex & Hx0); [lia|].
    destruct (np_linspace_first 0 1 target_len)
      as (n0 & nrest & En & Hn0); [lia|].
    fold old_x in Ex. fold new_x in En. rewrite Ex, En. simpl nth.
    simpl hd. apply List.Forall_cons_iff in Hwf' as [Hr0 _].
    etransitivity; [|exact (row_eta r0 6 Hr0)].
    apply map_ext. intros k. unfold column. rewrite Erows. simpl map.
    apply interp_one_first.
    + now rewrite <- Ex.
    + rewrite Ex in Hold. unfold nrows in Hold. rewrite Erows in Hold.
      simpl in Hold. rewrite length_map. lia.
    + lra.
  - unfold from_columns. cbn [rows].
    destruct (length new_x) as [|m] eqn:Em; [lia|].
    rewrite (seq_S m 0), map_app. cbn [map]. rewrite last_last.
    simpl Nat.add. rewrite map_map.
    assert (Hlast : List.Forall (fun r => length r = 6%nat) (r0 :: rs)
                    → length (List.last (r0 :: rs) []) = 6%nat).
    { intros H. rewrite List.Forall_forall in H. apply H.
      apply last_cons_In. }
    etransitivity; [|exact (row_eta (List.last (r0 :: rs) []) 6 (Hlast Hwf'))].
    apply map_ext. intros k.
    rewrite (nth_map_default _ _ 0) by lia.
    rewrite interp_one_last.
    + unfold column. rewrite Erows.
      now rewrite (last_map _ _ []) by discriminate.
    + now rewrite length_column.
    + exact Hold_ne.
    + assert (Hm : nth m new_x 0 == 1).
      { assert (E : nth m new_x 0 = List.last new_x 0).
        { clear -Em. revert m Em. induction new_x as [|a l IH]; intros m Em;
            [discriminate|].
          destruct l as [|b l]; [simpl in Em; now replace m with 0%nat by lia|].
          destruct m as [|m]; [discriminate|].
          change (nth m (b :: l) 0 = List.last (b :: l) 0).
          apply IH. simpl in *. lia. }
        rewrite E. apply np_linspace_last. exact HL. }
      eapply List.Forall_impl; [|apply (np_linspace_le_stop 0 1); lra].
      simpl. intros y Hy. lra.
Qed.

Lemma to_fixed_length_endpoints_witness :
  ∃ out, to_fixed_length (mk_array 6 [[1; 2; 3; 4; 5; 6]; [3; 4; 5; 6; 7; 8]]) 3
           = Ok out
         ∧ hd [] (rows out) = [1; 2; 3; 4; 5; 6]
         ∧ List.last (rows out) [] = [3; 4; 5; 6; 7; 8].
Proof.
  apply (to_fixed_length_endpoints
           (mk_array 6 [[1; 2; 3; 4; 5; 6]; [3; 4; 5; 6; 7; 8]]) 3).
  - reflexivity.
  - repeat constructor.
  - unfold nrows. simpl. lia.
  - lia.
Defined.

(** ** Peak Detector: a signal of zeros *)

Lemma nth_all_zero (l : list Q) j :
  List.Forall (fun x => x == 0) l → nth j l 0 == 0.
Proof.
  intros Hl. revert j. induction Hl as [|x l Hx Hl IH]; intros [|j]; simpl;
    try reflexivity; [exact Hx | apply IH].
Qed.

Lemma Qsum_all_zero (l : list Q) :
  List.Forall (fun x => x == 0) l → Qsum l == 0.
Proof.
  induction 1 as [|x l Hx Hl IH]; simpl; [reflexivity|].
  rewrite Hx, IH. reflexivity.
Qed.

Lemma conv_full_at_zero (a v : list Q) m :
  List.Forall (fun x => x == 0) a ∨ List.Forall (fun x => x == 0) v →
  conv_full_at a v m == 0.
Proof.
  intros H. unfold conv_full_at.
  rewrite (Qsum_map_const _ 0); [ring|].
  intros j _. destruct H as [H|H].
  - rewrite (nth_all_zero a j H). ring.
  - rewrite (nth_all_zero v (m - j) H). ring.
Qed.

Lemma moving_average_zero (signal : list Q) (fs : Q) smooth :
  List.Forall (fun x => x == 0) signal →
  moving_average signal fs = Ok smooth →
  List.Forall (fun x => x == 0) smooth.
Proof.
  intros Hz. unfold moving_average.
  destruct (1 <? Z.max 3 (py_int ((5 # 100) * fs)))%Z.
  2:{ intros H. injection H as <-. exact Hz. }
  unfold np_convolve_same.
  set (kernel := box_kernel _).
  destruct (length signal <? length kernel)%nat;
    (destruct (_ =? 0)%nat; [discriminate|]);
    (destruct (_ =? 0)%nat; [discriminate|]);
    intros H; injection H as <-;
    apply List.Forall_forall; intros y Hy;
    apply in_map_iff in Hy as (i & <- & _);
    apply conv_full_at_zero; auto.
Qed.

(** X8. A signal whose samples are all zero has no peak, whatever its
    length, the sampling rate and the minimum distance, for every threshold
    factor that is not negative: the smoothed signal is zero, so no sample
    is above the mean. *)
Theorem zero_signal_no_peaks (signal : list Q)
    (fs thresh_factor min_distance_sec : Q) :
  List.Forall (fun x => x == 0) signal → 0 <= thresh_factor →
  smooth_and_detect_peaks signal fs thresh_factor min_distance_sec = Ok [].
Proof.
  intros Hz Hf.
  destruct (Nat.lt_ge_cases (length signal) 3) as [Hsmall|Hn].
  { unfold smooth_and_detect_peaks.
    destruct (Z.ltb_spec (Z.of_nat (length signal)) 3) as [_|]; [|lia].
    reflexivity. }
  destruct (smooth_and_detect_peaks_steps signal fs thresh_factor
              min_distance_sec Hn) as (smooth & Hsmooth & _ & ->).
  pose proof (moving_average_zero _ _ _ Hz Hsmooth) as Hs.
  rewrite filter_none; [reflexivity|].
  intros i _. unfold candidate_test. cbv zeta.
  rewrite above_thresh_below_mean; [reflexivity | exact Hf|].
  rewrite (nth_all_zero smooth _ Hs).
  unfold np_mean, Qdiv. rewrite (Qsum_all_zero smooth Hs). lra.
Qed.

Lemma zero_signal_no_peaks_witness :
  smooth_and_detect_peaks [0; 0; 0; 0; 0; 0] FS_TARGET 1 (3 # 10) = Ok [].
Proof.
  apply zero_signal_no_peaks.
  - repeat constructor.
  - vm_compute. discriminate.
Defined.

(** ** From the detected peaks to the written files *)

Lemma filter_all {A} (p : A → bool) l :
  (∀ x, In x l → p x = true) → List.filter p l = l.
Proof.
  induction l as [|a l IH]; intros H; simpl; [reflexivity|].
  rewrite (H a) by now left. f_equal. apply IH. intros x Hx. apply H. now right.
Qed.

Lemma write_segments_count (label : string) (segments : list ndarray) :
  List.Forall (fun seg => ncols seg = 6%nat ∧ (1 <= nrows seg)%nat) segments →
  ∀ (idx count : Z) (dir : gmap string ndarray),
    snd (write_segments label segments idx count dir)
      = Ok (count + Z.of_nat (length segments))%Z.
Proof.
  induction 1 as [|seg rest [Hd Hr] Hrest IH]; intros idx count dir.
  - simpl. f_equal. lia.
  - cbn [write_segments].
    destruct (to_fixed_length_total seg SEGMENT_SAMPLES Hd Hr) as [r ->];
      [unfold SEGMENT_SAMPLES; lia|].
    rewrite IH. f_equal. simpl length. lia.
Qed.

Lemma detected_peaks_interior (signal : list Q)
    (fs thresh_factor min_distance_sec : Q) (peaks : list Z) :
  smooth_and_detect_peaks signal fs thresh_factor min_distance_sec = Ok peaks →
  List.Forall (fun i => (1 <= i <= Z.of_nat (length signal) - 2)%Z) peaks.
Proof.
  intros Hres.
  destruct (Nat.lt_ge_cases (length signal) 3) as [Hsmall|Hn].
  - unfold smooth_and_detect_peaks in Hres.
    destruct (Z.ltb_spec (Z.of_nat (length signal)) 3) as [_|]; [|lia].
    injection Hres as <-. constructor.
  - destruct (smooth_and_detect_peaks_kept signal fs thresh_factor
                min_distance_sec peaks Hn Hres)
      as (smooth & _ & _ & Hall & _).
    eapply List.Forall_impl; [|exact Hall].
    intros i [Hi _]. apply py_range_In in Hi. lia.
Qed.

(** X9. In both drivers every detected peak gives one written file: with
    the sampling rate and the window of the module (100 Hz, half a second
    on either side), no peak that [smooth_and_detect_peaks] returns is
    skipped by [segment_around_peaks], each segment has between 3 and 100
    rows of six channels and is normalised to 100 rows, and the count that
    the driver returns is the number of peaks. *)
Theorem detected_peaks_all_written (label : string) (data6 : ndarray)
    (mag : list Q) (peaks : list Z) (dir : gmap string ndarray) :
  ncols data6 = 6%nat → length mag = nrows data6 →
  smooth_and_detect_peaks mag FS_TARGET 1 (3 # 10) = Ok peaks →
  ∃ segments,
    segment_around_peaks data6 peaks FS_TARGET PRE_SEG_SEC POST_SEG_SEC
      = Ok segments
    ∧ length segments = length peaks
    ∧ List.Forall
        (fun seg =>
           ncols seg = 6%nat ∧ (3 <= nrows seg <= 100)%nat
           ∧ ∃ fixed, to_fixed_length seg SEGMENT_SAMPLES = Ok fixed
                      ∧ nrows fixed = 100%nat ∧ ncols fixed = 6%nat)
        segments
    ∧ snd (process_class label segments dir) = Ok (Z.of_nat (length peaks))
    ∧ snd (process_new_folder label segments dir)
        = Ok (Z.of_nat (length peaks)).
Proof.
  intros Hd Hlen Hpeaks.
  apply detected_peaks_interior in Hpeaks. rewrite Hlen in Hpeaks.
  unfold segment_around_peaks.
  rewrite (proj2 (Nat.eqb_eq _ _) Hd). simpl negb. cbv iota zeta.
  replace (py_int (PRE_SEG_SEC * FS_TARGET)) with 50%Z by reflexivity.
  replace (py_int (POST_SEG_SEC * FS_TARGET)) with 50%Z by reflexivity.
  rewrite segment_loop_filter. rewrite app_nil_l.
  rewrite filter_all.
  2:{ intros p Hp. rewrite List.Forall_forall in Hpeaks.
      specialize (Hpeaks p Hp). cbn [fst snd segment_bounds].
      apply Z.ltb_lt.
      clear -Hpeaks. lia. }
  eexists. split; [reflexivity|].
  split; [now rewrite length_map|].
  assert (Hsegs : List.Forall
            (fun seg => ncols seg = 6%nat ∧ (3 <= nrows seg <= 100)%nat)
            (map (fun p => {| ncols := ncols data6;
                     rows := py_slice (rows data6)
                               (fst (segment_bounds (Z.of_nat (nrows data6)) 50 50 p))
                               (snd (segment_bounds (Z.of_nat (nrows data6)) 50 50 p)) |})
                 peaks)).
  { apply List.Forall_forall. intros seg Hseg.
    apply in_map_iff in Hseg as (p & <- & Hp).
    rewrite List.Forall_forall in Hpeaks. specialize (Hpeaks p Hp).
    split; [exact Hd|].
    destruct (length_py_slice (rows data6)
                (Z.max 0 (p - 50)) (Z.min (Z.of_nat (nrows data6)) (p + 50)))
      as [_ Hslice]; [lia | unfold nrows; lia|].
    unfold nrows in *. cbn [rows fst snd segment_bounds].
    rewrite Hslice. lia. }
  assert (Hok : List.Forall
            (fun seg => ncols seg = 6%nat ∧ (1 <= nrows seg)%nat)
            (map (fun p => {| ncols := ncols data6;
                     rows := py_slice (rows data6)
                               (fst (segment_bounds (Z.of_nat (nrows data6)) 50 50 p))
                               (snd (segment_bounds (Z.of_nat (nrows data6)) 50 50 p)) |})
                 peaks)).
  { eapply List.Forall_impl; [|exact Hsegs]. intros seg [H1 H2].
    split; [exact H1 | lia]. }
  split; [|split].
  - eapply List.Forall_impl; [|exact Hsegs]. intros seg [H1 H2].
    split; [exact H1|]. split; [exact H2|].
    destruct (to_fixed_length_total seg SEGMENT_SAMPLES H1) as [fixed Hfixed];
      [lia | unfold SEGMENT_SAMPLES; lia|].
    exists fixed. split; [exact Hfixed|].
    apply to_fixed_length_shape in Hfixed as [Hc Hr].
    unfold SEGMENT_SAMPLES in Hr. split; [lia | exact Hc].
  - unfold process_class. rewrite write_segments_count by exact Hok.
    rewrite length_map. reflexivity.
  - unfold process_new_folder. cbv zeta.
    rewrite write_segments_count by exact Hok.
    rewrite length_map. reflexivity.
Qed.

Lemma detected_peaks_all_written_witness :
  ∃ segments,
    segment_around_peaks (constant_array 12 6 1) [2%Z] FS_TARGET
      PRE_SEG_SEC POST_SEG_SEC = Ok segments
    ∧ length segments = 1%nat
    ∧ List.Forall
        (fun seg =>
           ncols seg = 6%nat ∧ (3 <= nrows seg <= 100)%nat
           ∧ ∃ fixed, to_fixed_length seg SEGMENT_SAMPLES = Ok fixed
                      ∧ nrows fixed = 100%nat ∧ ncols fixed = 6%nat)
        segments
    ∧ snd (process_class "Forehand" segments ∅) = Ok 1%Z
    ∧ snd (process_new_folder "Forehand" segments ∅) = Ok 1%Z.
Proof.
  apply (detected_peaks_all_written "Forehand" (constant_array 12 6 1)
           [0; 0; 0; 0; 1; 0; 0; 0; 0; 0; 0; 0] [2%Z] ∅).
  - reflexivity.
  - reflexivity.
  - vm_compute. reflexivity.
Defined.

(** ** Output directories: running twice, appending twice *)

Lemma write_segments_union (label : string) (segments : list ndarray) :
  ∀ (idx count : Z) (dir : gmap string ndarray),
    fst (write_segments label segments idx count dir)
      = fst (write_segments label segments idx count ∅) ∪ dir
    ∧ snd (write_segments label segments idx count dir)
      = snd (write_segments label segments idx count ∅).
Proof.
  induction segments as [|seg rest IH]; intros idx count dir;
    cbn [write_segments].
  - simpl. split; [now rewrite (left_id_L ∅ (∪)) | reflexivity].
  - destruct (to_fixed_length seg SEGMENT_SAMPLES) as [fixed|e].
    + destruct (IH (idx + 1)%Z (count + 1)%Z
                  (<[segment_file_name label idx := fixed]> dir)) as [E1 E2].
      destruct (IH (idx + 1)%Z (count + 1)%Z
                  (<[segment_file_name label idx := fixed]> ∅)) as [E3 E4].
      rewrite E1, E2, E3, E4. split; [|reflexivity].
      rewrite (insert_union_singleton_l dir), (insert_union_singleton_l ∅).
      rewrite (right_id_L ∅ (∪)). now rewrite (assoc_L (∪)).
    + simpl. split; [now rewrite (left_id_L ∅ (∪)) | reflexivity].
Qed.

(** X10. Running [process_class] a second time on the same segments
    changes nothing: it leaves the directory exactly as the first run left
    it and returns the same count (or stops on the same exception). *)
Theorem process_class_idempotent (class_name : string)
    (segments : list ndarray) (dir : gmap string ndarray) :
  let once := process_class class_name segments dir in
  let twice := process_class class_name segments (fst once) in
  fst twice = fst once ∧ snd twice = snd once.
Proof.
  cbv zeta. unfold process_class.
  destruct (write_segments_union class_name segments 1 0 dir) as [E1 E2].
  destruct (write_segments_union class_name segments 1 0
              (fst (write_segments class_name segments 1 0 dir))) as [E3 E4].
  split; [|congruence].
  rewrite E3, E1. rewrite (assoc_L (∪)). now rewrite (idemp_L (∪)).
Qed.

(** X11. After [process_new_folder] has appended its segments, the next
    free index of the class has moved on by the number of segments: a
    second append starts right after the files of the first. *)
Theorem process_new_folder_advances_index (label : string)
    (segments : list ndarray) (dir : gmap string ndarray) :
  no_underscore label = true →
  List.Forall (fun seg => ncols seg = 6%nat ∧ (1 <= nrows seg)%nat) segments →
  next_index_for_class label (fst (process_new_folder label segments dir))
    = (next_index_for_class label dir + Z.of_nat (length segments))%Z.
Proof.
  intros Hl Hsegs. unfold process_new_folder. cbv zeta.
  set (next := next_index_for_class label dir).
  set (dir' := fst (write_segments label segments next 0 dir)).
  destruct (next_index_for_class_spec label dir) as (H1 & H2 & H3).
  destruct (next_index_for_class_spec label dir') as (H1' & H2' & H3').
  cbv zeta in *. fold next in H1, H2, H3.
  set (next' := next_index_for_class label dir') in *.
  destruct (write_segments_spec label segments Hl Hsegs next 0 dir)
    as (_ & Hkeep & Hnew); [lia|]. cbv zeta in *. fold dir' in Hkeep, Hnew.
  assert (Hparsed : ∀ i, parsed_index label
                           (segment_file_name label (next + Z.of_nat i))
                         = Some (next + Z.of_nat i)%Z).
  { intros i. apply parsed_index_segment_file_name; [exact Hl | lia]. }
  assert (Hlow : (next + Z.of_nat (length segments) <= next')%Z).
  { destruct (length segments) as [|m] eqn:Em.
    - destruct H3 as [E|(name & Hin & Hp)]; [lia|].
      assert (is_Some (dir' !! name)); [|pose proof (H2' name _ H Hp); lia].
      rewrite Hkeep; [exact Hin|]. intros i _ ->.
      rewrite Hparsed in Hp. injection Hp. lia.
    - destruct (lookup_lt_is_Some_2 segments m) as [seg Hseg]; [lia|].
      destruct (Hnew m seg Hseg) as (fixed & _ & Hin).
      pose proof (H2' _ _ (mk_is_Some _ _ Hin) (Hparsed m)). lia. }
  assert (Hhigh : (next' <= next + Z.of_nat (length segments))%Z).
  { destruct H3' as [E|(name & Hin & Hp)]; [lia|].
    destruct (written_name_dec label next name (length segments))
      as [(i & Hi & ->)|Hnot].
    - rewrite Hparsed in Hp. injection Hp. lia.
    - rewrite (Hkeep name Hnot) in Hin. pose proof (H2 name _ Hin Hp). lia. }
  lia.
Qed.

Lemma process_new_folder_advances_index_witness :
  next_index_for_class "Forehand"
    (fst (process_new_folder "Forehand"
            [constant_array 2 6 1; constant_array 3 6 1]
            {["Forehand_007.csv" := constant_array 100 6 0]}))
  = (next_index_for_class "Forehand"
       {["Forehand_007.csv" := constant_array 100 6 0]} + 2)%Z.
Proof.
  apply (process_new_folder_advances_index "Forehand"
           [constant_array 2 6 1; constant_array 3 6 1]
           {["Forehand_007.csv" := constant_array 100 6 0]}).
  - reflexivity.
  - repeat constructor; unfold nrows; simpl; lia.
Defined.

(** ** Output directories: a label with an underscore *)

Lemma prefix_app_inv (a s : string) :
  String.prefix a s = true → ∃ r, s = a +:+ r.
Proof.
  revert s. induction a as [|x a IH]; intros s H.
  - exists s. now rewrite append_nil_l.
  - destruct s as [|y s]; [discriminate|]. simpl in H.
    destruct (ascii_dec x y) as [->|]; [|discriminate].
    destruct (IH s H) as [r ->]. exists r. now rewrite append_cons.
Qed.

Lemma substring_app_long (a r : string) n :
  (String.length a <= n)%nat →
  substring 0 n (a +:+ r) = a +:+ substring 0 (n - String.length a) r.
Proof.
  revert n. induction a as [|x a IH]; intros n Hn.
  - rewrite !append_nil_l. simpl. now rewrite Nat.sub_0_r.
  - simpl in Hn. destruct n as [|n]; [lia|].
    rewrite !append_cons. simpl. f_equal. apply IH. lia.
Qed.

Lemma split_on_nonempty c (s : string) : split_on c s ≠ [].
Proof.
  destruct s as [|a s]; simpl; [discriminate|].
  destruct (split_on c s); [discriminate|].
  destruct (Ascii.eqb a c); discriminate.
Qed.

Lemma split_on_sep_length c (a b : string) :
  (2 <= length (split_on c (a +:+ String c b)))%nat.
Proof.
  induction a as [|x a IH].
  - rewrite append_nil_l. cbn [split_on].
    destruct (split_on c b) as [|w ws] eqn:E; [now apply split_on_nonempty in E|].
    rewrite Ascii.eqb_refl. simpl. lia.
  - rewrite append_cons. cbn [split_on].
    destruct (split_on c (a +:+ String c b)) as [|w ws]; [simpl in IH; lia|].
    destruct (Ascii.eqb x c); simpl in *; lia.
Qed.

Lemma split_on_underscore_label (a b : string) :
  no_underscore a = false →
  (3 <= length (split_on "_" (a +:+ String "_" b)))%nat.
Proof.
  unfold no_underscore. induction a as [|x a IH]; intros Ha; [discriminate|].
  rewrite append_cons. cbn [split_on].
  pose proof (split_on_sep_length "_" a b) as H2.
  destruct (split_on "_" (a +:+ String "_" b)) as [|w ws] eqn:E;
    [simpl in H2; lia|].
  simpl in Ha. destruct (Ascii.eqb x "_"); simpl in Ha.
  - simpl in *. lia.
  - specialize (IH Ha). simpl in *. lia.
Qed.

Lemma parsed_index_underscore_label (label name : string) :
  no_underscore label = false → parsed_index label name = None.
Proof.
  intros Hl. unfold parsed_index.
  destruct (glob_match label name) eqn:Hglob; [|reflexivity].
  unfold glob_match in Hglob.
  apply andb_true_iff in Hglob as [Hglob Hlen].
  apply andb_true_iff in Hglob as [Hpre _].
  apply Nat.leb_le in Hlen.
  apply prefix_app_inv in Hpre as [r ->].
  unfold stem.
  rewrite string_app_assoc, append_cons, append_nil_l in *.
  rewrite substring_app_long
    by (rewrite string_length_app in *; simpl in *; lia).
  destruct (String.length (label +:+ String "_" r) - 4 - String.length label)%nat
    as [|m] eqn:Em.
  { rewrite string_length_app in *. simpl in *. lia. }
  change (substring 0 (S m) (String "_" r))
    with (String "_" (substring 0 m r)).
  pose proof (split_on_underscore_label label (substring 0 m r) Hl) as H3.
  destruct (split_on "_" _) as [|p1 [|p2 [|p3 ps]]]; simpl in H3;
    try lia; reflexivity.
Qed.

(** X12. For a class label that contains an underscore,
    [next_index_for_class] is 1 whatever the directory holds: the stem of
    every matching file splits into more than two parts, so every file is
    skipped, and [process_new_folder] then numbers its files from 001 like
    [process_class]. *)
Theorem next_index_for_class_underscore_label (label : string)
    (segments : list ndarray) (dir : gmap string ndarray) :
  no_underscore label = false →
  next_index_for_class label dir = 1%Z
  ∧ process_new_folder label segments dir = process_class label segments dir.
Proof.
  intros Hl.
  assert (Hnext : next_index_for_class label dir = 1%Z).
  { destruct (next_index_for_class_spec label dir) as (_ & _ & H3).
    cbv zeta in H3. destruct H3 as [E|(name & _ & Hp)]; [exact E|].
    now rewrite parsed_index_underscore_label in Hp. }
  split; [exact Hnext|].
  unfold process_new_folder, process_class. cbv zeta. now rewrite Hnext.
Qed.

Lemma next_index_for_class_underscore_label_witness :
  next_index_for_class "Fore_hand"
    {["Fore_hand_007.csv" := constant_array 100 6 0]} = 1%Z
  ∧ process_new_folder "Fore_hand" [constant_array 2 6 1]
      {["Fore_hand_007.csv" := constant_array 100 6 0]}
    = process_class "Fore_hand" [constant_array 2 6 1]
        {["Fore_hand_007.csv" := constant_array 100 6 0]}.
Proof.
  apply next_index_for_class_underscore_label. reflexivity.
Defined.

(** ** Padding and truncation *)

(** X13. [pad_or_truncate] (the same function in [train_cnn.py] and in
    [ml_model.py]) returns exactly [length] rows of the same width and only
    touches the end of a sample: a sample of at most [length] rows is
    followed by rows of zeros, a longer one is cut to its first [length]
    rows.  Hence padding a sample and truncating the result to the original
    number of rows gives the sample back, applying the function twice with
    one length is applying it once, and rows of equal width stay so. *)
Theorem pad_or_truncate_round_trip (sample : ndarray) (length : Z) :
  (0 <= length)%Z →
  let t := Z.of_nat (nrows sample) in
  let padded := pad_or_truncate sample length in
  Z.of_nat (nrows padded) = length
  ∧ ncols padded = ncols sample
  ∧ ((t <= length)%Z →
     rows padded
       = rows sample
         ++ repeat (repeat 0 (ncols sample)) (Z.to_nat (length - t)))
  ∧ ((length < t)%Z → rows padded = firstn (Z.to_nat length) (rows sample))
  ∧ ((t <= length)%Z → pad_or_truncate padded t = sample)
  ∧ pad_or_truncate padded length = padded
  ∧ (wf_array sample → wf_array padded).
Proof.
  intros H0. cbv zeta.
  destruct (pad_or_truncate_cases sample length H0)
    as (Hrows & Hcols & Hsame & Hcrop & Hpad). cbv zeta in *.
  assert (Hpad' : (Z.of_nat (nrows sample) <= length)%Z →
            rows (pad_or_truncate sample length)
            = rows sample
              ++ repeat (repeat 0 (ncols sample))
                   (Z.to_nat (length - Z.of_nat (nrows sample)))).
  { intros Hle.
    destruct (Z.eq_dec (Z.of_nat (nrows sample)) length) as [E|NE].
    - rewrite (Hsame E). rewrite E, Z.sub_diag. simpl. now rewrite app_nil_r.
    - apply Hpad. lia. }
  split; [exact Hrows|]. split; [exact Hcols|]. split; [exact Hpad'|].
  split; [exact Hcrop|]. split; [|split].
  - intros HL.
    destruct (Z.eq_dec (Z.of_nat (nrows sample)) length) as [E|NE].
    + rewrite (Hsame E). unfold pad_or_truncate. now rewrite Z.eqb_refl.
    + unfold pad_or_truncate at 1. rewrite Hrows.
      rewrite (proj2 (Z.eqb_neq _ _)) by lia.
      rewrite (proj2 (Z.ltb_lt _ _)) by lia.
      rewrite Hcols, Hpad by lia.
      destruct (length_py_slice
                  (rows sample
                   ++ repeat (repeat 0 (ncols sample))
                        (Z.to_nat (length - Z.of_nat (nrows sample))))
                  0 (Z.of_nat (nrows sample))) as [-> _].
      * lia.
      * rewrite length_app. unfold nrows. lia.
      * rewrite Z.sub_0_r, Nat2Z.id. unfold nrows.
        change (Z.to_nat 0) with 0%nat. rewrite drop_0.
        rewrite List.firstn_app, List.firstn_all, Nat.sub_diag. simpl.
        rewrite app_nil_r. now destruct sample.
  - unfold pad_or_truncate at 1. rewrite Hrows. now rewrite Z.eqb_refl.
  - intros Hwf. unfold wf_array. rewrite Hcols.
    destruct (Z.lt_ge_cases length (Z.of_nat (nrows sample))) as [Hlt|Hge].
    + rewrite (Hcrop Hlt). unfold wf_array in Hwf.
      rewrite List.Forall_forall in Hwf |- *. intros r Hr.
      apply Hwf. rewrite <- (firstn_skipn (Z.to_nat length) (rows sample)).
      apply in_or_app. now left.
    + rewrite Hpad' by lia. apply List.Forall_app. split; [exact Hwf|].
      apply List.Forall_forall. intros r Hr. apply repeat_spec in Hr as ->.
      apply repeat_length.
Qed.

Lemma pad_or_truncate_round_trip_witness :
  Z.of_nat (nrows (pad_or_truncate (constant_array 3 6 1) FIXED_LENGTH))
    = FIXED_LENGTH
  ∧ rows (pad_or_truncate (constant_array 3 6 1) FIXED_LENGTH)
    = rows (constant_array 3 6 1) ++ repeat (repeat 0 6) 125
  ∧ pad_or_truncate (pad_or_truncate (constant_array 3 6 1) FIXED_LENGTH) 3
    = constant_array 3 6 1
  ∧ rows (pad_or_truncate (constant_array 3 6 1) 2)
    = firstn 2 (rows (constant_array 3 6 1))
  ∧ wf_array (pad_or_truncate (constant_array 3 6 1) FIXED_LENGTH).
Proof.
  destruct (pad_or_truncate_round_trip (constant_array 3 6 1) FIXED_LENGTH)
    as (H1 & _ & H3 & _ & H5 & _ & H7); [vm_compute; discriminate|].
  destruct (pad_or_truncate_round_trip (constant_array 3 6 1) 2)
    as (_ & _ & _ & H4 & _); [lia|].
  split; [exact H1|].
  split; [apply H3; vm_compute; discriminate|].
  split; [apply H5; vm_compute; discriminate|].
  split; [apply H4; vm_compute; reflexivity|].
  apply H7. repeat constructor.
Defined.

(** ** Augmenting a split up to its target size *)

Lemma augment_sample_shape (sample noise : ndarray) (gains : list Q)
    (scale : Q) :
  (1 <= nrows sample)%nat → nrows noise = nrows sample →
  ∃ out, augment_sample sample noise gains scale = Ok out
         ∧ Z.of_nat (nrows out) = FIXED_LENGTH ∧ ncols out = ncols sample.
Proof.
  intros Hrows Hnoise.
  assert (Haug : nrows (noise_and_gain sample noise gains) = nrows sample).
  { unfold noise_and_gain, nrows in *. simpl.
    rewrite length_map, length_zip_with. lia. }
  destruct (nrows_time_scale (noise_and_gain sample noise gains) scale)
    as (warped & Hw & _ & Hwcols); [lia|].
  destruct (pad_or_truncate_cases warped FIXED_LENGTH
              ltac:(unfold FIXED_LENGTH; lia)) as (Hlen & Hcols & _).
  exists (pad_or_truncate warped FIXED_LENGTH).
  split; [unfold augment_sample; now rewrite Hw|].
  split; [exact Hlen|]. now rewrite Hcols, Hwcols.
Qed.

Lemma mapM_Forall2 {A B} (f : A → result B) (l : list A) :
  (∀ x, In x l → ∃ y, f x = Ok y) →
  ∃ ys, mapM f l = Ok ys ∧ Forall2 (fun x y => f x = Ok y) l ys.
Proof.
  induction l as [|x l IH]; intros Hf.
  - exists []. split; [reflexivity | constructor].
  - destruct (Hf x) as [y Hy]; [now left|].
    destruct IH as (ys & E & F); [intros z Hz; apply Hf; now right|].
    exists (y :: ys). simpl. rewrite Hy. simpl. rewrite E. simpl.
    split; [reflexivity | now constructor].
Qed.

Lemma nth_error_list_lookup {A} (l : list A) n : nth_error l n = l !! n.
Proof.
  revert n. induction l as [|a l IH]; intros [|n]; simpl; try reflexivity.
  apply IH.
Qed.

Lemma py_getitem_lookup {A} (l : list A) (i : Z) (x : A) :
  (0 <= i)%Z → l !! Z.to_nat i = Some x → py_getitem l i = Ok x.
Proof.
  intros Hi Hx. unfold py_getitem.
  pose proof (lookup_lt_Some _ _ _ Hx) as Hlt.
  destruct (Z.ltb_spec i 0) as [|_]; [lia|].
  destruct (Z.ltb_spec i 0) as [|_]; [lia|].
  destruct (Z.leb_spec (Z.of_nat (length l)) i) as [|_]; [lia|].
  simpl. now rewrite nth_error_list_lookup, Hx.
Qed.

Lemma np_stack_same_shape (arrays : list ndarray) (r c : nat) :
  arrays ≠ [] →
  List.Forall (fun a => nrows a = r ∧ ncols a = c) arrays →
  np_stack arrays = Ok {| item_rows := r; item_cols := c; items := arrays |}.
Proof.
  intros Hne Hall. destruct arrays as [|a rest]; [congruence|].
  apply List.Forall_cons_iff in Hall as [[Hr Hc] Hrest]. unfold np_stack.
  rewrite (proj2 (forallb_forall _ rest)).
  - now rewrite Hr, Hc.
  - intros b Hb. rewrite List.Forall_forall in Hrest.
    destruct (Hrest b Hb) as [-> ->]. rewrite Hr, Hc.
    now rewrite !Nat.eqb_refl.
Qed.

(** X14. [augment_to_target] of [prepare_split_for_class]: a split that
    already has the target size is returned as it is; an empty split with a
    positive target stops on a division by zero; and a split of [n >= 1]
    padded samples is brought to exactly [target] samples, the originals
    first and unchanged, followed by augmented samples of the same shape,
    the one of turn [i] made from the original [i mod n], with [target]
    labels all equal to the class index. *)
Theorem augment_to_target_reaches_target (class_index : Z)
    (draw : nat → ndarray * list Q * Q)
    (X_split : ndarray3) (y_split : list Z) (target : Z) :
  let n := length (items X_split) in
  ((target <= Z.of_nat n)%Z →
   augment_to_target class_index draw X_split y_split target
     = Ok (X_split, y_split))
  ∧ (n = 0%nat → (0 < target)%Z →
     augment_to_target class_index draw X_split y_split target
       = Raise ZeroDivisionError)
  ∧ (wf_array3 X_split → Z.of_nat (item_rows X_split) = FIXED_LENGTH →
     (1 <= n)%nat → (Z.of_nat n < target)%Z →
     (∀ i, nrows (fst (fst (draw i))) = item_rows X_split) →
     ∃ added,
       augment_to_target class_index draw X_split y_split target
         = Ok ({| item_rows := item_rows X_split;
                  item_cols := item_cols X_split;
                  items := items X_split ++ added |},
               repeat class_index (Z.to_nat target))
       ∧ Z.of_nat (length (items X_split ++ added)) = target
       ∧ List.Forall (fun a => nrows a = item_rows X_split
                               ∧ ncols a = item_cols X_split) added
       ∧ ∀ i a, added !! i = Some a →
           ∃ base, items X_split !! (i mod n)%nat = Some base
                   ∧ augment_sample base (fst (fst (draw i)))
                       (snd (fst (draw i))) (snd (draw i)) = Ok a).
Proof.
  cbv zeta. set (n := length (items X_split)).
  split; [|split].
  - intros Hle. unfold augment_to_target. fold n.
    now rewrite (proj2 (Z.leb_le _ _) Hle).
  - intros Hn Hpos. unfold augment_to_target. fold n. rewrite Hn.
    rewrite (proj2 (Z.leb_gt _ _)) by lia.
    cbv zeta. unfold py_range.
    destruct (Z.to_nat (target - Z.of_nat 0 - 0)) as [|m] eqn:Em; [lia|].
    reflexivity.
  - intros Hwf Hrows Hn Hlt Hnoise. unfold augment_to_target. fold n.
    rewrite (proj2 (Z.leb_gt _ _)) by lia. cbv zeta.
    rewrite (proj2 (Z.eqb_neq (Z.of_nat n) 0)) by lia.
    set (f := fun i : Z =>
                base ← py_getitem (items X_split) (i mod Z.of_nat n)%Z;
                (let '(noise, gains, scale) := draw (Z.to_nat i) in
                 augment_sample base noise gains scale)).
    assert (Hf : ∀ i, (0 <= i)%Z →
              ∃ base a,
                items X_split !! (Z.to_nat i mod n)%nat = Some base
                ∧ f i = Ok a
                ∧ augment_sample base (fst (fst (draw (Z.to_nat i))))
                    (snd (fst (draw (Z.to_nat i)))) (snd (draw (Z.to_nat i)))
                  = Ok a
                ∧ nrows a = item_rows X_split ∧ ncols a = item_cols X_split).
    { intros i Hi.
      assert (Hmod : Z.to_nat (i mod Z.of_nat n) = (Z.to_nat i mod n)%nat).
      { rewrite <- (Z2Nat.id i) at 1 by exact Hi.
        rewrite <- Nat2Z.inj_mod. apply Nat2Z.id. }
      destruct (lookup_lt_is_Some_2 (items X_split) (Z.to_nat i mod n)%nat)
        as [base Hbase].
      { fold n. apply Nat.mod_upper_bound. lia. }
      unfold wf_array3 in Hwf. rewrite List.Forall_forall in Hwf.
      destruct (Hwf base) as [Hbr Hbc].
      { eapply nth_error_In. rewrite nth_error_list_lookup. exact Hbase. }
      destruct (augment_sample_shape base (fst (fst (draw (Z.to_nat i))))
                  (snd (fst (draw (Z.to_nat i)))) (snd (draw (Z.to_nat i))))
        as (a & Ha & Har & Hac).
      { unfold FIXED_LENGTH in Hrows. lia. }
      { now rewrite Hnoise, Hbr. }
      exists base, a. split; [exact Hbase|]. split.
      { unfold f. rewrite (py_getitem_lookup _ _ base).
        - cbn [mbind result_bind].
          destruct (draw (Z.to_nat i)) as [[noise gains] scale]. exact Ha.
        - apply Z.mod_pos_bound. lia.
        - now rewrite Hmod. }
      split; [exact Ha|]. split; [lia | congruence]. }
    destruct (mapM_Forall2 f (py_range 0 (target - Z.of_nat n)))
      as (added & Hadded & Hall).
    { intros i Hi. apply py_range_In in Hi.
      destruct (Hf i) as (base & a & _ & Ha & _); [lia|]. now exists a. }
    rewrite Hadded. cbn [mbind result_bind].
    assert (Hlen : length added = Z.to_nat (target - Z.of_nat n)).
    { apply Forall2_length in Hall. rewrite <- Hall. unfold py_range.
      rewrite length_map, length_seq. f_equal. lia. }
    assert (Hith : ∀ i a, added !! i = Some a → f (Z.of_nat i) = Ok a).
    { intros i a Ha.
      destruct (Forall2_lookup_r _ _ _ _ _ Hall Ha) as (x & Hx & Hfx).
      unfold py_range in Hx. rewrite list_lookup_fmap in Hx.
      destruct (seq 0 (Z.to_nat (target - Z.of_nat n - 0)) !! i) as [k|] eqn:Ek;
        [|discriminate].
      apply lookup_seq in Ek as [-> _]. simpl in Hx. injection Hx as <-.
      rewrite Z.add_0_l in Hfx. exact Hfx. }
    assert (Hshape : List.Forall (fun a => nrows a = item_rows X_split
                                           ∧ ncols a = item_cols X_split) added).
    { apply List.Forall_forall. intros a Ha.
      apply In_nth_error in Ha as [i Hi]. rewrite nth_error_list_lookup in Hi.
      apply Hith in Hi.
      destruct (Hf (Z.of_nat i)) as (_ & a' & _ & Ha' & _ & Hs); [lia|].
      rewrite Hi in Ha'. injection Ha' as <-. exact Hs. }
    rewrite (np_stack_same_shape added (item_rows X_split) (item_cols X_split)).
    2:{ intros ->. simpl in Hlen. lia. }
    2:{ exact Hshape. }
    cbn [mbind result_bind]. unfold np_concatenate. cbn [item_rows item_cols items].
    rewrite !Nat.eqb_refl. cbn [andb mbind result_bind items].
    exists added.
    assert (Htotal : Z.of_nat (length (items X_split ++ added)) = target).
    { rewrite length_app, Hlen. fold n. lia. }
    split; [do 3 f_equal; lia|]. split; [exact Htotal|].
    split; [exact Hshape|].
    intros i a Ha. apply Hith in Ha.
    destruct (Hf (Z.of_nat i)) as (base & a' & Hbase & Ha' & Haug & _); [lia|].
    rewrite Ha in Ha'. injection Ha' as <-. rewrite Nat2Z.id in *.
    now exists base.
Qed.

Lemma augment_to_target_reaches_target_witness :
  augment_to_target 3 (fun _ => (constant_array 128 6 0, repeat 1 6, 1))
    (mk_array3 128 6 []) [] 2
  = Raise ZeroDivisionError
  ∧ ∃ added,
      augment_to_target 3 (fun _ => (constant_array 128 6 0, repeat 1 6, 1))
        (mk_array3 128 6 [constant_array 128 6 1]) [3%Z] 3
      = Ok (mk_array3 128 6 ([constant_array 128 6 1] ++ added),
            repeat 3%Z 3)
      ∧ Z.of_nat (length ([constant_array 128 6 1] ++ added)) = 3%Z
      ∧ List.Forall (fun a => nrows a = 128%nat ∧ ncols a = 6%nat) added
      ∧ ∀ i a, added !! i = Some a →
          ∃ base, [constant_array 128 6 1] !! (i mod 1)%nat = Some base
                  ∧ augment_sample base (constant_array 128 6 0) (repeat 1 6) 1
                    = Ok a.
Proof.
  split.
  - apply (proj1 (proj2 (augment_to_target_reaches_target 3
                           (fun _ => (constant_array 128 6 0, repeat 1 6, 1))
                           (mk_array3 128 6 []) [] 2))).
    + reflexivity.
    + lia.
  - apply (proj2 (proj2 (augment_to_target_reaches_target 3
                           (fun _ => (constant_array 128 6 0, repeat 1 6, 1))
                           (mk_array3 128 6 [constant_array 128 6 1])
                           [3%Z] 3))).
    + repeat constructor.
    + reflexivity.
    + simpl. lia.
    + simpl. lia.
    + intros i. reflexivity.
Defined.

(** ** Dual-Sensor Merger: the merged signal *)





(** ** A peak away from both ends *)

(** X16. A peak that lies at least half a second from both ends of the
    merged signal is written without any interpolation: with the constants
    of the module its segment is exactly the 100 rows [peak - 50] to
    [peak + 49], [to_fixed_length] returns that segment as it is, and the
    row of the peak is row 50 of the written segment. *)
Theorem interior_peak_segment_unchanged (data6 : ndarray) (peaks : list Z)
    (p : Z) :
  ncols data6 = 6%nat → In p peaks →
  (50 <= p)%Z → (p + 50 <= Z.of_nat (nrows data6))%Z →
  ∃ segments seg,
    segment_around_peaks data6 peaks FS_TARGET PRE_SEG_SEC POST_SEG_SEC
      = Ok segments
    ∧ In seg segments
    ∧ rows seg = firstn 100 (skipn (Z.to_nat (p - 50)) (rows data6))
    ∧ to_fixed_length seg SEGMENT_SAMPLES = Ok seg
    ∧ nth 50 (rows seg) [] = nth (Z.to_nat p) (rows data6) [].
Proof.
  intros Hd Hp Hlo Hhi. unfold segment_around_peaks.
  rewrite (proj2 (Nat.eqb_eq _ _) Hd). simpl negb. cbv iota zeta.
  replace (py_int (PRE_SEG_SEC * FS_TARGET)) with 50%Z by reflexivity.
  replace (py_int (POST_SEG_SEC * FS_TARGET)) with 50%Z by reflexivity.
  rewrite segment_loop_filter, app_nil_l.
  set (n := Z.of_nat (nrows data6)) in *.
  assert (Hstart : Z.max 0 (p - 50) = (p - 50)%Z) by lia.
  assert (Hstop : Z.min n (p + 50) = (p + 50)%Z) by lia.
  destruct (length_py_slice (rows data6) (p - 50) (p + 50))
    as [Hslice Hlen]; [lia | unfold n, nrows in Hhi; lia|].
  replace (p + 50 - (p - 50))%Z with 100%Z in Hslice, Hlen by lia.
  eexists _, {| ncols := ncols data6;
                rows := py_slice (rows data6) (p - 50) (p + 50) |}.
  split; [reflexivity|]. split.
  { apply in_map_iff. exists p. cbn [fst snd segment_bounds].
    rewrite Hstart, Hstop. split; [reflexivity|].
    apply filter_In. split; [exact Hp|].
    cbn [fst snd segment_bounds]. apply Z.ltb_lt. lia. }
  cbn [rows]. split; [exact Hslice|]. split.
  { apply to_fixed_length_same; [exact Hd|].
    unfold nrows. cbn [rows]. rewrite Hlen. reflexivity. }
  rewrite Hslice.
  change (Z.to_nat 100) with 100%nat.
  rewrite nth_firstn. change (50 <? 100)%nat with true. cbv iota.
  rewrite nth_skipn. f_equal. lia.
Qed.

Lemma interior_peak_segment_unchanged_witness :
  ∃ segments seg,
    segment_around_peaks (constant_array 120 6 1) [60%Z] FS_TARGET
      PRE_SEG_SEC POST_SEG_SEC = Ok segments
    ∧ In seg segments
    ∧ rows seg = firstn 100 (skipn (Z.to_nat (60 - 50))
                               (rows (constant_array 120 6 1)))
    ∧ to_fixed_length seg SEGMENT_SAMPLES = Ok seg
    ∧ nth 50 (rows seg) [] = nth (Z.to_nat 60) (rows (constant_array 120 6 1)) [].
Proof.
  apply (interior_peak_segment_unchanged (constant_array 120 6 1) [60%Z] 60).
  - reflexivity.
  - now left.
  - lia.
  - vm_compute. discriminate.
Defined.

(** ** Synthetic Augmentor: a sample without rows *)

(** X17. [augment_sample] cannot augment an empty sample: for a sample
    with no row and at least one channel the interpolation has no sample
    point to start from and the call stops on a [ValueError], whatever the
    random draws are. *)
Theorem augment_sample_empty (sample noise : ndarray) (gains : list Q)
    (scale : Q) :
  nrows sample = 0%nat → (1 <= ncols sample)%nat →
  augment_sample sample noise gains scale = Raise ValueError_numpy.
Proof.
  intros Hrows Hcols. unfold augment_sample, time_scale.
  assert (Haug : nrows (noise_and_gain sample noise gains) = 0%nat).
  { unfold noise_and_gain, nrows in *. simpl.
    rewrite length_map, length_zip_with. lia. }
  rewrite Haug. cbn [Z.of_nat].
  change (np_linspace 0 (inject_Z (0 - 1)) 0) with (@nil Q).
  rewrite interp_columns_raise; [reflexivity|].
  unfold noise_and_gain. simpl. lia.
Qed.

Lemma augment_sample_empty_witness :
  augment_sample (mk_array 6 []) (mk_array 6 []) (repeat 1 6) 1
    = Raise ValueError_numpy.
Proof.
  apply augment_sample_empty.
  - reflexivity.
  - simpl. lia.
Defined.
